(** * quantum-job-sync: the job pipeline of [main.py]

    A shallow embedding of the pipeline in [main.py]: the process lock, the
    seen-URL cache, the retrying HTTP helpers, ranking, generation and the
    persistence of letters and follow-ups, with the properties the
    specification states about them.

    Conventions of the embedding.
    - Python text is [string], one [ascii] per character; a text of the
      embedding is one that the encodings in use can write (a lone
      surrogate, at which [write_text] and [print] raise
      [UnicodeEncodeError], has no counterpart). A [datetime] is kept as
      its ISO-8601 text.
    - The file system is a finite map from paths to file contents, on a
      platform whose line end is the line feed.
    - A Python call that can raise returns [res]; code that also touches the
      file system, the cache, the console or the network runs in the
      state-and-exception monad [M].
    - Everything outside the program (the network, the HTML parsers built on
      BeautifulSoup, [json], NumPy's numeric kernels, the clock, the
      environment variables) is a field of [Env]. *)

From Stdlib Require Import ZArith Floats Ascii.
From stdpp Require Import gmap strings list fin_maps sorting.

Set Warnings "-register-all,-inexact-float".

(** ** Python values *)

(** The exception classes the program can meet. [HTTPStatusError] and
    [TransportError] are the two families below [httpx.HTTPError]. *)
Inductive exn_class : Type :=
  | HTTPStatusError
  | TransportError
  | RetryError
  | JSONDecodeError
  | FileExistsError
  | FileNotFoundError
  | TypeError
  | AttributeError
  | KeyError
  | IndexError
  | ValueError
  | OtherException.

#[global] Instance exn_class_eq_dec : EqDecision exn_class.
Proof. solve_decision. Defined.

(** An exception: its class and [str(e)]. *)
Record exn : Type := Exn { exn_cls : exn_class; exn_msg : string }.

(** [isinstance(e, httpx.HTTPError)]. *)
Definition is_HTTPError (e : exn) : bool :=
  match exn_cls e with
  | HTTPStatusError | TransportError => true
  | _ => false
  end.

(** [isinstance(e, httpx.HTTPStatusError)]. *)
Definition is_HTTPStatusError (e : exn) : bool :=
  match exn_cls e with
  | HTTPStatusError => true
  | _ => false
  end.

(** The outcome of a Python call: a value, or a raised exception. *)
Inductive res (A : Type) : Type :=
  | Ok (a : A)
  | Raise (e : exn).
Arguments Ok {A} a.
Arguments Raise {A} e.

(** What [json.loads] returns and [json.dumps] takes. A [dict] is kept as
    its items, each key once. *)
Inductive json : Type :=
  | JNull
  | JBool (b : bool)
  | JInt (n : Z)
  | JFloat (f : float)
  | JStr (s : string)
  | JArr (l : list json)
  | JObj (kv : list (string * json)).

(** [d[k]] on the items of a dict. *)
Fixpoint assoc (k : string) (kv : list (string * json)) : option json :=
  match kv with
  | [] => None
  | (k', v) :: kv' => if String.eqb k k' then Some v else assoc k kv'
  end.

(** [x[k]] for a string key: only a dict can be indexed by a string. *)
Definition getitem (x : json) (k : string) : res json :=
  match x with
  | JObj kv =>
      match assoc k kv with
      | Some v => Ok v
      | None => Raise (Exn KeyError k)
      end
  | _ => Raise (Exn TypeError "indices must be integers")
  end.

(** [x[0]]. *)
Definition getitem0 (x : json) : res json :=
  match x with
  | JArr (v :: _) => Ok v
  | JArr [] => Raise (Exn IndexError "list index out of range")
  | JStr (String c _) => Ok (JStr (String c EmptyString))
  | JStr EmptyString => Raise (Exn IndexError "string index out of range")
  | JObj kv => Raise (Exn KeyError "0")
  | _ => Raise (Exn TypeError "object is not subscriptable")
  end.

(** ** The data class *)

Record Job : Type := mkJob {
  title : string;
  url : string;
  date : string;
  board : string;
  summary : string
}.

(** The [__eq__] that [@dataclass] generates compares the fields. *)
#[global] Instance Job_eq_dec : EqDecision Job.
Proof. solve_decision. Defined.


(** ** The world the program runs in *)

(** What the program prints. The banner's clock and mood figures and the
    wording are left out; a line is known by its kind and its arguments. *)
Inductive msg : Type :=
  | MsgLocked
  | MsgMood
  | MsgNoNewJobs
  | MsgRanked (found applying : nat)
  | MsgFailed (job_title : string) (data_error : json)
  | MsgWritten (job_title path : string)
  | MsgAllDone.

(** What the program does on the network, and its waits between attempts. *)
Inductive net_event : Type :=
  | Get (target : string)
  | Post (path : string) (payload : json)
  | Sleep (seconds : Z).

(** The mutable world: the file system, the module global [SEEN_URLS], the
    console and the network log (both newest first), and the number of
    times the follow-up clock was read. *)
Record State : Type := mkState {
  fs : gmap string string;
  SEEN_URLS : gset string;
  stdout : list msg;
  net : list net_event;
  ticks : nat
}.

Definition set_fs (f : gmap string string) (st : State) : State :=
  mkState f (SEEN_URLS st) (stdout st) (net st) (ticks st).
Definition set_seen (s : gset string) (st : State) : State :=
  mkState (fs st) s (stdout st) (net st) (ticks st).
Definition push_stdout (m : msg) (st : State) : State :=
  mkState (fs st) (SEEN_URLS st) (m :: stdout st) (net st) (ticks st).
Definition push_net (e : net_event) (st : State) : State :=
  mkState (fs st) (SEEN_URLS st) (stdout st) (e :: net st) (ticks st).
Definition tick (st : State) : State :=
  mkState (fs st) (SEEN_URLS st) (stdout st) (net st) (S (ticks st)).

(** The state-and-exception monad of the embedding. *)
Definition M (A : Type) : Type := State → State * res A.

Definition ret {A} (a : A) : M A := λ st, (st, Ok a).
Definition raise {A} (e : exn) : M A := λ st, (st, Raise e).
Definition lift {A} (r : res A) : M A := λ st, (st, r).
Definition bind {A B} (m : M A) (k : A → M B) : M B :=
  λ st, match m st with
        | (st', Ok a) => k a st'
        | (st', Raise e) => (st', Raise e)
        end.
(** [try: ... except Exception] and [return_exceptions=True]: the outcome
    becomes a value. *)
Definition catch {A} (m : M A) : M (res A) :=
  λ st, match m st with (st', r) => (st', Ok r) end.
Definition modify (f : State → State) : M unit := λ st, (f st, Ok tt).
Definition gets {A} (f : State → A) : M A := λ st, (st, Ok (f st)).

Notation "'do' x <- m ; k" := (bind m (λ x, k))
  (at level 10, x name, m at level 100, k at level 200).
Notation "'do_' m ; k" := (bind m (λ _, k))
  (at level 10, m at level 100, k at level 200).

Definition print (m : msg) : M unit := modify (push_stdout m).

(** The pure counterpart of [bind], for code that only raises. *)
Definition rbind {A B} (r : res A) (k : A → res B) : res B :=
  match r with
  | Ok a => k a
  | Raise e => Raise e
  end.

(** A list comprehension whose body can raise. *)
Fixpoint rmap {A B} (f : A → res B) (l : list A) : res (list B) :=
  match l with
  | [] => Ok []
  | x :: l' => rbind (f x) (λ y, rbind (rmap f l') (λ ys, Ok (y :: ys)))
  end.

(** A comprehension over awaited calls, in list order. *)
Fixpoint mapM {A B} (f : A → M B) (l : list A) : M (list B) :=
  match l with
  | [] => ret []
  | x :: l' => do y <- f x; do ys <- mapM f l'; ret (y :: ys)
  end.

(** A [for] loop whose body can raise. *)
Fixpoint forM {A} (f : A → M unit) (l : list A) : M unit :=
  match l with
  | [] => ret tt
  | x :: l' => do_ f x; forM f l'
  end.

(** ** Text helpers *)

(** The line feed. *)
Definition LF : string := String (Ascii.ascii_of_nat 10) "".

(** What reading a file as text does to the line ends: a carriage return
    with the line feed after it, and a carriage return alone, each become
    one line feed. *)
Fixpoint universal_newlines (s : string) : string :=
  match s with
  | EmptyString => ""
  | String c s' =>
      if Ascii.eqb c (Ascii.ascii_of_nat 13) then
        String (Ascii.ascii_of_nat 10)
          match s' with
          | String c' s'' =>
              if Ascii.eqb c' (Ascii.ascii_of_nat 10) then universal_newlines s''
              else universal_newlines s'
          | EmptyString => ""
          end
      else String c (universal_newlines s')
  end.

(** [s[:n]]. *)
Fixpoint str_take (n : nat) (s : string) : string :=
  match n, s with
  | S n', String c s' => String c (str_take n' s')
  | _, _ => ""
  end.

(** [s.replace(a, b)] for one-character [a] and [b]. *)
Fixpoint replace_char (a b : Ascii.ascii) (s : string) : string :=
  match s with
  | EmptyString => ""
  | String c s' =>
      String (if Ascii.eqb c a then b else c) (replace_char a b s')
  end.

(** [sep.join(l)]. *)
Fixpoint join (sep : string) (l : list string) : string :=
  match l with
  | [] => ""
  | [s] => s
  | s :: l' => s +:+ sep +:+ join sep l'
  end.

(** [sub in s] on text. *)
Fixpoint is_substring (sub s : string) : bool :=
  String.prefix sub s ||
  match s with
  | EmptyString => false
  | String _ s' => is_substring sub s'
  end.

(** [a / b] of [pathlib], for a relative [b]. *)
Definition path_join (a b : string) : string := a +:+ "/" +:+ b.

(** [sorted] on a set of text: ascending by code point. *)
Definition sorted_strs (s : gset string) : list string :=
  merge_sort String.le (elements s).

(** ** Everything outside the program *)

(** [MOOD]: the palette entry picked by the mood engine. *)
Record Mood : Type := mkMood {
  mood_tag : string;
  mood_tone : string;
  mood_temp : float;
  mood_topp : float
}.

Record Env : Type := mkEnv {
  (** Configuration: the lower-cased query, the Craigslist sites, the data
      directory, the applicant and the prompt. The module computes
      [CACHE_DIR] as text; it stands here for the directory path that the
      later [/] expects. *)
  QID : string;
  CR_SITES : list string;
  CACHE_DIR : string;
  APPLICANT_NAME : string;
  PAST_SKILLS : list string;
  CAREER_GOALS : string;
  MEGA_PROMPT_V6 : string;
  MOOD : Mood;
  (** [str(dt.date.today())]. *)
  today : string;
  (** [(utcnow() + timedelta(days=2)).isoformat()] at the n-th reading. *)
  eta_iso : nat → string;
  (** One attempt of [c.get(url)], [raise_for_status()], [r.text]; the
      number is the attempt's. *)
  http_get : string → nat → res string;
  (** One attempt of [c.post(path)], [raise_for_status()], [r.json()]. *)
  http_post : string → json → nat → res json;
  (** The loops over the parsed markup, one per board. *)
  parse_craigslist : string → string → res (list Job);
  parse_remoteok : string → res (list Job);
  parse_wwr : string → res (list Job);
  (** [json.loads] on text and [json.dumps]. *)
  json_loads : string → res json;
  json_dumps : json → string;
  (** [np.array] on a list of rows, as the rows of the array; it raises on
      what NumPy rejects. *)
  np_array : list json → res (list (list float));
  (** [_cosine]: [np.dot] and [np.linalg.norm] are binary64 kernels whose
      summation order NumPy leaves open. *)
  _cosine : list float → list float → float;
  (** Whether [\w] of [re] matches the character. *)
  is_word : Ascii.ascii → bool
}.

Definition EMBED_MODEL : string := "text-embedding-3-small".
Definition GPT_MODEL : string := "gpt-4o".
Definition MAX_APPLY : nat := 3.

Definition SEEN_FILE (env : Env) : string := path_join (CACHE_DIR env) "seen.json".
Definition LOCK_FILE (env : Env) : string := path_join (CACHE_DIR env) ".lock".

(** ** Files *)

(** [p.write_text(data)] once it has returned. *)
Definition write_text (p data : string) : M unit :=
  modify (λ st, set_fs (<[p := data]> (fs st)) st).

(** [p.read_text() if p.exists() else ""]: reading as text translates the
    line ends. *)
Definition read_text_or_empty (p : string) : M string :=
  gets (λ st, universal_newlines (default "" (fs st !! p))).

(** [src.replace(dst)]: one rename, which takes the place of [dst]. *)
Definition rename (src dst : string) (f : gmap string string)
  : option (gmap string string) :=
  match f !! src with
  | Some data => Some (<[dst := data]> (delete src f))
  | None => None
  end.

Definition path_replace (src dst : string) : M unit :=
  λ st, match rename src dst (fs st) with
        | Some f => (set_fs f st, Ok tt)
        | None => (st, Raise (Exn FileNotFoundError src))
        end.

(** [os.open(p, O_CREAT | O_EXCL | O_WRONLY)]: creates the empty file, or
    raises when the path exists. *)
Definition os_open_excl (p : string) : M unit :=
  λ st, match fs st !! p with
        | Some _ => (st, Raise (Exn FileExistsError p))
        | None => (set_fs (<[p := ""]> (fs st)) st, Ok tt)
        end.

(** [os.remove(p)]. *)
Definition os_remove (p : string) : M unit :=
  λ st, match fs st !! p with
        | Some _ => (set_fs (delete p (fs st)) st, Ok tt)
        | None => (st, Raise (Exn FileNotFoundError p))
        end.

(** ** The seen-URL cache *)

Definition seen_tmp (env : Env) : string := path_join (CACHE_DIR env) "seen.tmp".

(** The text of a cache: its urls in order, as JSON. *)
Definition seen_text (env : Env) (seen : gset string) : string :=
  json_dumps env (JArr (JStr <$> sorted_strs seen)).

(** The file operations that persisting is made of, and one program after
    another. *)
Inductive fs_prog : Type :=
  | WriteText (p data : string)
  | Replace (src dst : string)
  | Then (a b : fs_prog).

(** Running such a program. *)
Fixpoint fs_run (prog : fs_prog) : M unit :=
  match prog with
  | WriteText p data => write_text p data
  | Replace src dst => path_replace src dst
  | Then a b => do_ fs_run a; fs_run b
  end.

(** The body of [_save_seen]: the text goes to the temporary file, which
    then takes the place of the cache file. *)
Definition save_seen_prog (env : Env) (seen : gset string) : fs_prog :=
  let tmp := seen_tmp env in
  Then (WriteText tmp (json_dumps env (JArr (JStr <$> sorted_strs seen))))
       (Replace tmp (SEEN_FILE env)).

Definition _save_seen (env : Env) (seen : gset string) : M unit :=
  fs_run (save_seen_prog env seen).

(** ** Retrying, as [tenacity] does it *)

(** The arguments of one [@retry(...)]: [wait_exponential(multiplier, min,
    max)], [stop_after_attempt(n)] and [retry_if_exception_type(cls)]. *)
Record Retry : Type := mkRetry {
  multiplier : Z;
  wait_min : Z;
  wait_max : Z;
  max_attempt_number : nat;
  retry_on : exn → bool
}.

(** [wait_exponential.__call__]: [multiplier * 2 ** (attempt_number - 1)]
    kept between [min] and [max]. *)
Definition wait_exponential (r : Retry) (attempt_number : nat) : Z :=
  Z.max (Z.max 0 (wait_min r))
        (Z.min (multiplier r * 2 ^ (Z.of_nat attempt_number - 1)) (wait_max r)).

(** [stop_after_attempt.__call__]. *)
Definition stop_after_attempt (r : Retry) (attempt_number : nat) : bool :=
  bool_decide (max_attempt_number r ≤ attempt_number).

Definition retry_error : exn := Exn RetryError "RetryError".

(** The loop of [Retrying.__call__] ([while True]): attempt; return the
    value; re-raise what the policy does not retry; raise [RetryError] when
    the stop condition holds; otherwise sleep and go round again. The loop
    has no bound of its own, so the embedding counts iterations with
    [fuel] and answers [None] when they run out. *)
Fixpoint retry_loop {A} (fuel : nat) (r : Retry) (fn : nat → M A)
    (attempt_number : nat) (st : State) : option (State * res A) :=
  match fuel with
  | O => None
  | S fuel' =>
      match fn attempt_number st with
      | (st', Ok a) => Some (st', Ok a)
      | (st', Raise e) =>
          if retry_on r e then
            if stop_after_attempt r attempt_number
            then Some (st', Raise retry_error)
            else retry_loop fuel' r fn (S attempt_number)
                   (push_net (Sleep (wait_exponential r attempt_number)) st')
          else Some (st', Raise e)
      end
  end.

(** The same loop counted down on the attempts that remain after this
    one; [retry_loop_retrying] below shows that the loop above computes
    exactly this whenever it is given enough fuel. *)
Fixpoint retry_from {A} (remaining : nat) (r : Retry) (fn : nat → M A)
    (attempt_number : nat) (st : State) : State * res A :=
  match fn attempt_number st with
  | (st', Ok a) => (st', Ok a)
  | (st', Raise e) =>
      if retry_on r e then
        match remaining with
        | O => (st', Raise retry_error)
        | S remaining' =>
            retry_from remaining' r fn (S attempt_number)
              (push_net (Sleep (wait_exponential r attempt_number)) st')
        end
      else (st', Raise e)
  end.

(** A function under [@retry]: the first attempt has number 1. *)
Definition retrying {A} (r : Retry) (fn : nat → M A) : M A :=
  retry_from (max_attempt_number r - 1) r fn 1.

(** ** HTTP helpers *)

Definition GET_HTML_RETRY : Retry := mkRetry 1 2 20 3 is_HTTPError.
Definition OPENAI_RETRY : Retry := mkRetry 2 4 60 4 is_HTTPStatusError.

(** One request with its outcome: the body of a function under [@retry],
    at the attempt with the given number. *)
Definition request {A} (ev : net_event) (outcome : nat → res A) (n : nat) : M A :=
  do_ modify (push_net ev); lift (outcome n).

Definition get_once (env : Env) (target : string) : nat → M string :=
  request (Get target) (http_get env target).

Definition _get_html (env : Env) (target : string) : M string :=
  retrying GET_HTML_RETRY (get_once env target).

Definition post_once (env : Env) (path : string) (payload : json) : nat → M json :=
  request (Post ("/" +:+ path) payload) (http_post env path payload).

Definition _openai_post (env : Env) (path : string) (payload : json) : M json :=
  retrying OPENAI_RETRY (post_once env path payload).

(** ** Board parsers *)

Definition _scrape_craigslist (env : Env) (city : string) : M (list Job) :=
  let target := "https://" +:+ city +:+ ".craigslist.org/search/jjj?sort=date&query="
                +:+ replace_char " "%char "+"%char (QID env) in
  do html <- _get_html env target;
  lift (parse_craigslist env city html).

Definition _scrape_remoteok (env : Env) : M (list Job) :=
  let target := "https://remoteok.com/remote-"
                +:+ replace_char " "%char "-"%char (QID env) +:+ "-jobs" in
  do html <- _get_html env target;
  lift (parse_remoteok env html).

Definition _scrape_wwr (env : Env) : M (list Job) :=
  let target := "https://weworkremotely.com/remote-jobs/search?term=" +:+ QID env in
  do html <- _get_html env target;
  lift (parse_wwr env html).

(** ** OpenAI helpers *)

(** [for d in x]: the items of a list, the keys of a dict, the characters
    of a text. *)
Fixpoint chars (s : string) : list json :=
  match s with
  | EmptyString => []
  | String c s' => JStr (String c "") :: chars s'
  end.

Definition iterate (x : json) : res (list json) :=
  match x with
  | JArr l => Ok l
  | JObj kv => Ok (JStr <$> kv.*1)
  | JStr s => Ok (chars s)
  | _ => Raise (Exn TypeError "object is not iterable")
  end.

Definition _embed (env : Env) (texts : list string) : M (list (list float)) :=
  do r <- _openai_post env "embeddings"
            (JObj [("model", JStr EMBED_MODEL); ("input", JArr (JStr <$> texts))]);
  lift (rbind (getitem r "data") (λ data,
        rbind (iterate data) (λ ds,
        rbind (rmap (λ d, getitem d "embedding") ds) (λ rows,
        np_array env rows)))).

Definition _gpt (env : Env) (messages : json) (temp top_p : float) : M json :=
  do r <- _openai_post env "chat/completions"
            (JObj [("model", JStr GPT_MODEL); ("temperature", JFloat temp);
                   ("top_p", JFloat top_p); ("messages", messages)]);
  lift (rbind (getitem r "choices") (λ choices,
        rbind (getitem0 choices) (λ choice,
        rbind (getitem choice "message") (λ message,
        getitem message "content")))).

(** ** The prompt flow *)

(** [json.loads(raw)]: only text can be parsed. *)
Definition loads (env : Env) (raw : json) : res json :=
  match raw with
  | JStr s => json_loads env s
  | _ => Raise (Exn TypeError "the JSON object must be str, bytes or bytearray")
  end.

Definition generation_messages (env : Env) (job : Job) : json :=
  let payload :=
    JObj [("job", JObj [("title", JStr (title job));
                        ("url", JStr (url job));
                        ("date", JStr (str_take 10 (date job)));
                        ("board", JStr (board job));
                        ("summary", JStr (summary job))]);
          ("applicant", JObj [("name", JStr (APPLICANT_NAME env));
                              ("top_skills", JArr (JStr <$> PAST_SKILLS env));
                              ("career_goals", JStr (CAREER_GOALS env));
                              ("brand_tone", JStr (mood_tone (MOOD env)));
                              ("quantum_mood",
                               JObj [("tag", JStr (mood_tag (MOOD env)));
                                     ("temp", JFloat (mood_temp (MOOD env)));
                                     ("top_p", JFloat (mood_topp (MOOD env)))])])] in
  JArr [JObj [("role", JStr "system"); ("content", JStr (MEGA_PROMPT_V6 env))];
        JObj [("role", JStr "user"); ("content", JStr (json_dumps env payload))]].

(** The body of the [try]. *)
Definition generation_call (env : Env) (job : Job) : M json :=
  do raw <- _gpt env (generation_messages env job)
              (mood_temp (MOOD env)) (mood_topp (MOOD env));
  lift (loads env raw).

(** The record that the [except] branch returns. *)
Definition parse_error (e : exn) : json :=
  JObj [("data_error", JStr ("parse error: " +:+ exn_msg e))].

Definition _mega_generate (env : Env) (job : Job) : M json :=
  do r <- catch (generation_call env job);
  match r with
  | Ok v => ret v
  | Raise e => ret (parse_error e)
  end.

(** ** Utilities *)

(** [re.sub(r"\W+", "_", s)]: every maximal run of characters that [\w]
    does not match becomes one underscore. [in_run] tells that the
    previous character already belonged to such a run. *)
Fixpoint sub_nonword (word : ascii → bool) (in_run : bool) (s : string) : string :=
  match s with
  | EmptyString => ""
  | String c s' =>
      if word c then String c (sub_nonword word false s')
      else if in_run then sub_nonword word true s'
      else String "_"%char (sub_nonword word true s')
  end.

Definition safe_title (env : Env) (job : Job) : string :=
  str_take 40 (sub_nonword (is_word env) false (title job)).

Definition letter_path (env : Env) (job : Job) : string :=
  let fname := today env +:+ "_" +:+ safe_title env job +:+ "_" +:+ board job +:+ ".md" in
  path_join (CACHE_DIR env) fname.

(** [write_text] refuses anything but text, before it opens the file. A
    text of the embedding is one that UTF-8 encodes, so the write itself
    does not fail here. *)
Definition _save_letter (env : Env) (job : Job) (letter : json) : M string :=
  let path := letter_path env job in
  match letter with
  | JStr text => do_ write_text path text; ret path
  | _ => raise (Exn TypeError "data must be str")
  end.

Definition follow_path (env : Env) : string := path_join (CACHE_DIR env) "followups.txt".

Definition followup_line (env : Env) (n : nat) (job : Job) : string :=
  eta_iso env n +:+ "||" +:+ url job +:+ LF.

Definition _schedule_followup (env : Env) (job : Job) : M unit :=
  do n <- gets ticks;
  do_ modify tick;
  do old <- read_text_or_empty (follow_path env);
  write_text (follow_path env) (followup_line env n job +:+ old).

(** ** Main workflow *)

(** The loop of [_gather] over the gathered batches. *)
Definition keep_unseen (seen : gset string) (batch : res (list Job)) : list Job :=
  match batch with
  | Raise _ => []
  | Ok js => filter (λ j, url j ∉ seen) js
  end.

Definition gather_tasks (env : Env) : list (M (list Job)) :=
  (_scrape_craigslist env <$> CR_SITES env)
  ++ [_scrape_remoteok env; _scrape_wwr env].

(** [asyncio.gather] with [return_exceptions=True] hands back every
    task's outcome, a list or an exception, in task order. *)
Definition _gather (env : Env) : M (list Job) :=
  do results <- mapM catch (gather_tasks env);
  do seen <- gets SEEN_URLS;
  ret (mjoin (keep_unseen seen <$> results)).

(** *** [sorted] *)

Section PySorted.
Context {T : Type}.
(** [a < b], which can raise. *)
Variable lt : T → T → res bool.

(** One insertion into an ascending run: [x] goes in front of the first
    element it is less than, hence behind its equals. *)
Fixpoint insert_sorted (x : T) (run : list T) : res (list T) :=
  match run with
  | [] => Ok [x]
  | y :: run' =>
      rbind (lt x y) (λ b,
        if b then Ok (x :: y :: run')
        else rbind (insert_sorted x run') (λ r, Ok (y :: r)))
  end.

Fixpoint sort_into (run todo : list T) : res (list T) :=
  match todo with
  | [] => Ok run
  | x :: todo' => rbind (insert_sorted x run) (λ run', sort_into run' todo')
  end.

(** [sorted(l, reverse=...)]: a stable ascending sort by [<]; with
    [reverse] the list is reversed before and after, which keeps equal
    elements in their input order. The sort is written as an insertion
    sort with a linear search. It stands for CPython's sort wherever [<]
    orders the elements, which for the scored postings of [_rank_jobs]
    means that no score is a NaN: there the result of a stable sort is
    determined, and a sort by comparisons has compared any two elements
    that end next to each other in its result, so that it raises on the
    same inputs. With a NaN among the scores [<] is no order, and what
    CPython returns then depends on the comparisons that its run
    detection and binary insertion happen to make, which this definition
    does not follow. *)
Definition py_sorted (reverse : bool) (l : list T) : res (list T) :=
  if reverse then rbind (sort_into [] (rev l)) (λ r, Ok (rev r))
  else sort_into [] l.
End PySorted.

Definition job_lt_error : exn :=
  Exn TypeError "'<' not supported between instances of 'Job' and 'Job'".

(** [a < b] on the [(score, job)] tuples: the scores decide unless they are
    equal; then the jobs are compared, and [Job] has [__eq__] but no
    [__lt__]. *)
Definition tuple_lt (a b : float * Job) : res bool :=
  if PrimFloat.eqb a.1 b.1 then
    if decide (a.2 = b.2) then Ok false else Raise job_lt_error
  else Ok (PrimFloat.ltb a.1 b.1).

Definition _rank_jobs (env : Env) (jobs : list Job) : M (list Job) :=
  match jobs with
  | [] => ret []
  | _ =>
      let all_texts := join " " (PAST_SKILLS env)
                       :: ((λ j, title j +:+ " " +:+ summary j) <$> jobs) in
      do embeds <- _embed env all_texts;
      do base <- lift (match embeds with
                       | b :: _ => Ok b
                       | [] => Raise (Exn IndexError "index 0 is out of bounds")
                       end);
      let scores := (λ p : list float * Job, (_cosine env base p.1, p.2))
                    <$> zip (drop 1 embeds) jobs in
      do ranked <- lift (py_sorted tuple_lt true scores);
      ret (ranked.*2)
  end.

(** *** [main] *)

(** [k in x]. *)
Definition contains (k : string) (x : json) : res bool :=
  match x with
  | JObj kv => Ok (bool_decide (is_Some (assoc k kv)))
  | JArr l => Ok (existsb (λ v, match v with
                                | JStr s => String.eqb s k
                                | _ => false
                                end) l)
  | JStr s => Ok (is_substring k s)
  | _ => Raise (Exn TypeError "argument is not iterable")
  end.

(** [x.get(k, d)]. *)
Definition dict_get (x : json) (k : string) (d : json) : res json :=
  match x with
  | JObj kv => Ok (default d (assoc k kv))
  | _ => Raise (Exn AttributeError "object has no attribute 'get'")
  end.

Definition add_seen (u : string) : M unit :=
  modify (λ st, set_seen ({[u]} ∪ SEEN_URLS st) st).

(** The body of the loop over [zip(chosen, results)]. *)
Definition handle_result (env : Env) (p : Job * json) : M unit :=
  let job := p.1 in
  let r := p.2 in
  do failed <- lift (contains "data_error" r);
  if failed : bool then
    do err <- lift (getitem r "data_error");
    print (MsgFailed (title job) err)
  else
    do letter <- lift (dict_get r "cover_letter" (JStr ""));
    do path <- _save_letter env job letter;
    do_ _schedule_followup env job;
    do_ add_seen (url job);
    print (MsgWritten (title job) path).

Definition main (env : Env) : M unit :=
  do locked <- catch (os_open_excl (LOCK_FILE env));
  match locked with
  | Raise _ => print MsgLocked
  | Ok _ =>
      do_ print MsgMood;
      do jobs <- _gather env;
      match jobs with
      | [] => print MsgNoNewJobs
      | _ =>
          do ranked <- _rank_jobs env jobs;
          let chosen := take MAX_APPLY ranked in
          do_ print (MsgRanked (length jobs) (length chosen));
          do results <- mapM (_mega_generate env) chosen;
          do_ forM (handle_result env) (zip chosen results);
          do seen <- gets SEEN_URLS;
          do_ _save_seen env seen;
          do_ print MsgAllDone;
          os_remove (LOCK_FILE env)
      end
  end.

(** ** Worlds to run the program in *)

(** A parser-free [np.array]: every row is a JSON array of floats. *)
Definition rows_of_floats (rows : list json) : res (list (list float)) :=
  rmap (λ row, match row with
               | JArr l => rmap (λ x, match x with
                                      | JFloat f => Ok f
                                      | _ => Raise (Exn ValueError "not a float")
                                      end) l
               | _ => Raise (Exn ValueError "not a row")
               end) rows.

(** [\w] on ASCII text. *)
Definition ascii_word (c : ascii) : bool :=
  (("a" <=? c) && (c <=? "z") || ("A" <=? c) && (c <=? "Z")
   || ("0" <=? c) && (c <=? "9") || (c =? "_"))%char.

(** A stand-in for [json.dumps]: of the generation payload it keeps the
    posting's url, which is all the worlds below look at. *)
Definition dumps_url (j : json) : string :=
  match j with
  | JObj (("job", JObj (_ :: ("url", JStr u) :: _)) :: _) => u
  | _ => "[...]"
  end.

(** The text of the user message of a chat payload. *)
Definition user_content (payload : json) : string :=
  match payload with
  | JObj [_; _; _; ("messages", JArr [_; JObj [_; ("content", JStr s)]])] => s
  | _ => ""
  end.

(** The embeddings reply that carries one-number vectors. *)
Definition embeddings_reply (vs : list float) : json :=
  JObj [("data", JArr ((λ v, JObj [("embedding", JArr [JFloat v])]) <$> vs))].

(** The chat reply whose message content is [s]. *)
Definition chat_reply (s : string) : json :=
  JObj [("choices", JArr [JObj [("message", JObj [("content", JStr s)])]])].

(** A world: the Craigslist sites and what their pages hold, the reply of
    the embeddings endpoint, and the reply of the chat endpoint to the
    posting with a given url. The other boards are empty, a vector's
    score is its one number, and the chat text [LETTER x] parses as a
    record with the cover letter [x]. *)
Definition world (sites : list string) (pages : string → res (list Job))
    (embeddings : nat → res json) (chat : string → nat → res json) : Env :=
  mkEnv "python developer" sites "main_data" "Ada Quantum-Smith"
    ["AES-GCM"; "Django"] "Lead teams" "[action:core_rules]"
    (mkMood "calm" "measured mentor" 0.4 0.9)
    "2026-11-04"
    (λ n, "2026-11-06T09:00:0" +:+ String (ascii_of_nat (48 + n)) "")
    (λ _ _, Ok "<html>")
    (λ path payload n,
       if String.eqb path "embeddings" then embeddings n
       else chat (user_content payload) n)
    (λ city _, pages city)
    (λ _, Ok [])
    (λ _, Ok [])
    (λ s, if String.prefix "LETTER " s
          then Ok (JObj [("cover_letter", JStr (String.substring 7 (String.length s) s))])
          else if String.eqb s "{}" then Ok (JObj [])
          else Raise (Exn JSONDecodeError "Expecting value"))
    dumps_url
    rows_of_floats
    (λ _ v, default 0%float (head v))
    ascii_word.

(** A fresh data directory and an empty cache. *)
Definition fresh : State := mkState ∅ ∅ [] [] 0.

Definition server_error : exn := Exn HTTPStatusError "500 Internal Server Error".

Definition job_a : Job :=
  mkJob "Python Developer" "https://newyork.craigslist.org/a.html"
        "2026-11-01T10:00:00" "Craigslist-newyork" "Build APIs".
Definition job_b : Job :=
  mkJob "Django Engineer" "https://newyork.craigslist.org/b.html"
        "2026-11-02T10:00:00" "Craigslist-newyork" "Ship web apps".
Definition job_c : Job :=
  mkJob "Backend Developer" "https://newyork.craigslist.org/c.html"
        "2026-11-03T10:00:00" "Craigslist-newyork" "Scale services".
Definition job_d : Job :=
  mkJob "Data Engineer" "https://newyork.craigslist.org/d.html"
        "2026-11-03T11:00:00" "Craigslist-newyork" "Move data".

(** No board has a posting. *)
Definition quiet_world : Env :=
  world ["newyork"] (λ _, Ok []) (λ _, Raise server_error) (λ _ _, Raise server_error).

(** Four postings whose scores are 0.9, 0.2, 0.9 and 0.5. *)
Definition tie_world : Env :=
  world ["newyork"] (λ _, Ok [job_a; job_b; job_c; job_d])
    (λ _, Ok (embeddings_reply [1; 0.9; 0.2; 0.9; 0.5]%float))
    (λ u _, Ok (chat_reply ("LETTER Dear " +:+ u))).

(** One posting, and an embeddings endpoint that answers 500 every time. *)
Definition scorer_down_world : Env :=
  world ["newyork"] (λ _, Ok [job_a])
    (λ _, Raise server_error) (λ u _, Ok (chat_reply ("LETTER Dear " +:+ u))).

(** One posting, and an embeddings endpoint that answers with no vector. *)
Definition scorer_empty_world : Env :=
  world ["newyork"] (λ _, Ok [job_a])
    (λ _, Ok (embeddings_reply [])) (λ u _, Ok (chat_reply ("LETTER Dear " +:+ u))).

(** Two sites that list the same posting. *)
Definition job_a_nearby : Job :=
  mkJob "Python Developer" "https://newyork.craigslist.org/a.html"
        "2026-11-01T10:00:00" "Craigslist-newjersey" "Build APIs".
Definition nearby_world : Env :=
  world ["newyork"; "newjersey"]
    (λ city, Ok [if String.eqb city "newyork" then job_a else job_a_nearby])
    (λ _, Ok (embeddings_reply [1; 0.9; 0.8]%float))
    (λ u _, Ok (chat_reply ("LETTER Dear " +:+ u))).

(** Three postings with scores 0.9, 0.5 and 0.2; the generation call for
    the second answers 500 every time. *)
Definition one_failure_world : Env :=
  world ["newyork"] (λ _, Ok [job_a; job_b; job_c])
    (λ _, Ok (embeddings_reply [1; 0.9; 0.5; 0.2]%float))
    (λ u _, if String.eqb u (url job_b) then Raise server_error
            else Ok (chat_reply ("LETTER Dear " +:+ u))).

(** ** Views of the state *)

(** [m] never changes what [view] shows of the state. *)
Definition preserves {V A} (view : State → V) (m : M A) : Prop :=
  ∀ st, view (m st).1 = view st.

(** Everything but the network log. *)
Definition offline (st : State) : gmap string string * gset string * list msg * nat :=
  (fs st, SEEN_URLS st, stdout st, ticks st).

Definition is_post (e : net_event) : bool :=
  match e with
  | Post _ _ => true
  | _ => false
  end.

(** Everything, with only the [POST]s of the network log. *)
Definition posts_only (st : State) :=
  (offline st, filter (λ e, is_post e = true) (net st)).

(** The state in which [_gather] starts: the lock is taken and the banner
    printed. *)
Definition lock_taken (env : Env) (st : State) : State :=
  push_stdout MsgMood (set_fs (<[LOCK_FILE env := ""]> (fs st)) st).

(** ** Auxiliary notions for the statements *)

(** The postings of the batches that arrived, in task order. *)
Definition fetched (batches : list (res (list Job))) : list Job :=
  mjoin ((λ b, match b with
               | Ok js => js
               | Raise _ => []
               end) <$> batches).

(** What an observer of the file system can see while [p.write_text(data)]
    runs: the file is opened empty and grows up to [data]. *)
Definition write_text_states (p data : string) (f : gmap string string)
  : list (gmap string string) :=
  (λ k, <[p := str_take k data]> f) <$> seq 0 (S (String.length data)).

(** The file system that a program of file operations ends with, when
    none of them raises. *)
Fixpoint fs_final (prog : fs_prog) (f : gmap string string)
  : option (gmap string string) :=
  match prog with
  | WriteText p data => Some (<[p := data]> f)
  | Replace src dst => rename src dst f
  | Then a b => fs_final a f ≫= fs_final b
  end.

(** What an observer of the file system can see, after the start [f],
    while a program runs: every stage of a write, and of a rename only
    its outcome, for a rename is one step. A program stops at the
    operation that raises. *)
Fixpoint fs_observe (prog : fs_prog) (f : gmap string string)
  : list (gmap string string) :=
  match prog with
  | WriteText p data => write_text_states p data f
  | Replace src dst => option_list (rename src dst f)
  | Then a b =>
      fs_observe a f ++ match fs_final a f with
                        | Some f' => fs_observe b f'
                        | None => []
                        end
  end.

Definition is_sleep (e : net_event) : bool :=
  match e with
  | Sleep _ => true
  | _ => false
  end.

(** The network log (newest first) of a call under [@retry] whose request
    is [ev], whose first attempt has number [n], and which retried
    [retries] times. *)
Fixpoint retry_events (r : Retry) (ev : net_event) (n retries : nat)
  : list net_event :=
  match retries with
  | O => [ev]
  | S k => retry_events r ev (S n) k ++ [Sleep (wait_exponential r n); ev]
  end.

(** A network log that stays within a policy: at most [attempts] requests,
    each of them [ev], and only waits between [lo] and [hi] seconds. *)
Definition within_policy (ev : net_event) (attempts : nat) (lo hi : Z)
    (evs : list net_event) : Prop :=
  length (filter (λ e, is_sleep e = false) evs) ≤ attempts
  ∧ Forall (λ e, match e with
                 | Sleep z => (lo ≤ z ≤ hi)%Z
                 | _ => e = ev
                 end) evs.

(** A result that the loop over the results takes for a failure: a record
    with the key "data_error". *)
Definition failed (r : json) : bool :=
  match r with
  | JObj kv => bool_decide (is_Some (assoc "data_error" kv))
  | _ => false
  end.

(** The state after the loop body has accepted [job] with the letter
    [text]: the letter is written, the follow-up line put in front of the
    journal as it was read, the url added to [SEEN_URLS], the success
    printed. *)
Definition accepted (env : Env) (job : Job) (text : string) (st : State) : State :=
  let f := <[letter_path env job := text]> (fs st) in
  mkState
    (<[follow_path env := followup_line env (ticks st) job
                          +:+ universal_newlines (default "" (f !! follow_path env))]> f)
    ({[url job]} ∪ SEEN_URLS st)
    (MsgWritten (title job) (letter_path env job) :: stdout st)
    (net st)
    (S (ticks st)).

(** Everything but the console. *)
Definition off_console (st : State)
  : gmap string string * gset string * list net_event * nat :=
  (fs st, SEEN_URLS st, net st, ticks st).

(** Whether a text ends in ".md". *)
Fixpoint ends_md (s : string) : bool :=
  String.eqb s ".md" ||
  match s with
  | EmptyString => false
  | String _ s' => ends_md s'
  end.

(** One posting, and a chat endpoint whose answer is the empty record. *)
Definition bare_reply_world : Env :=
  world ["newyork"] (λ _, Ok [job_a])
    (λ _, Ok (embeddings_reply [1; 0.9]%float)) (λ _ _, Ok (chat_reply "{}")).


(** ** The rest of the module *)

(** *** The mood palette *)

Definition _palette (idx : float) : Mood :=
  if PrimFloat.ltb idx 0.33 then mkMood "calm" "measured mentor" 0.40 0.90
  else if PrimFloat.ltb idx 0.66 then mkMood "energetic" "confident builder" 0.60 0.95
  else mkMood "visionary" "inspiring strategist" 0.75 0.98.

(** *** Loading the cache *)

(** What [set] cannot hash. *)
Definition unhashable (x : json) : bool :=
  match x with
  | JArr _ | JObj _ => true
  | _ => false
  end.

(** The text members of a list. *)
Definition texts_of (l : list json) : list string :=
  omap (λ x, match x with
             | JStr s => Some s
             | _ => None
             end) l.

(** The characters of a text, each as a text. *)
Fixpoint letters (s : string) : list string :=
  match s with
  | EmptyString => []
  | String c s' => String c "" :: letters s'
  end.

(** [set(x)] on what [json.loads] returns: the members of a list, the
    keys of a dict, the characters of a text; [TypeError] for a list
    with a member that cannot be hashed and for what cannot be iterated.
    A list that holds a number, a boolean or [null] next to no
    unhashable member makes a set that is not a set of text; [SEEN_URLS]
    in the embedding is a set of text, so there is no value for it and
    the answer is [None]. *)
Definition set_of_json (x : json) : option (res (gset string)) :=
  match x with
  | JArr l =>
      if existsb unhashable l then Some (Raise (Exn TypeError "unhashable type"))
      else if bool_decide (length (texts_of l) = length l)
           then Some (Ok (list_to_set (texts_of l)))
           else None
  | JObj kv => Some (Ok (list_to_set kv.*1))
  | JStr s => Some (Ok (list_to_set (letters s)))
  | _ => Some (Raise (Exn TypeError "object is not iterable"))
  end.

(** [_load_seen()] on a file system. The translation of line ends by
    [read_text] is left out: [json.loads] takes a carriage return and a
    line feed alike, as white space between tokens and as an error inside
    a string. *)
Definition _load_seen (env : Env) (f : gmap string string)
  : option (res (gset string)) :=
  match f !! SEEN_FILE env with
  | Some text =>
      match json_loads env text with
      | Ok x => set_of_json x
      | Raise e => Some (Raise e)
      end
  | None => Some (Ok ∅)
  end.

(** A world whose [json] knows the cache that holds the url of [job_a]. *)
Definition cache_text : string := "[a.html]".
Definition cache_world : Env :=
  mkEnv "python developer" ["newyork"] "main_data" "Ada Quantum-Smith"
    ["AES-GCM"; "Django"] "Lead teams" "[action:core_rules]"
    (mkMood "calm" "measured mentor" 0.4 0.9)
    "2026-11-04" (λ _, "2026-11-06T09:00:00")
    (λ _ _, Ok "<html>")
    (λ _ _ _, Raise server_error)
    (λ _ _, Ok []) (λ _, Ok []) (λ _, Ok [])
    (λ s, if String.eqb s cache_text then Ok (JArr [JStr (url job_a)])
          else Raise (Exn JSONDecodeError "Expecting value"))
    (λ _, cache_text)
    rows_of_floats
    (λ _ v, default 0%float (head v))
    ascii_word.

(** *** Notions for the statements about the rest *)

(** Whether every character of a text passes a test. *)
Fixpoint all_chars (test : ascii → bool) (s : string) : bool :=
  match s with
  | EmptyString => true
  | String c s' => test c && all_chars test s'
  end.

(** The postings of the results that are no failures. *)
Definition accepted_jobs (pairs : list (Job * json)) : list Job :=
  (filter (λ p, failed p.2 = false) pairs).*1.

(** The seconds slept in a network log. *)
Fixpoint slept (evs : list net_event) : Z :=
  match evs with
  | [] => 0
  | Sleep z :: evs' => z + slept evs'
  | _ :: evs' => slept evs'
  end.

Definition connection_error : exn := Exn TransportError "connection refused".

(** A world whose pages answer 500 at the first attempt and arrive at
    the second, and whose OpenAI endpoint cannot be reached. *)
Definition flaky_world : Env :=
  mkEnv "python developer" ["newyork"] "main_data" "Ada Quantum-Smith"
    ["AES-GCM"; "Django"] "Lead teams" "[action:core_rules]"
    (mkMood "calm" "measured mentor" 0.4 0.9)
    "2026-11-04" (λ _, "2026-11-06T09:00:00")
    (λ _ n, if decide (n = 1) then Raise server_error else Ok "<html>")
    (λ _ _ _, Raise connection_error)
    (λ _ _, Ok [job_a]) (λ _, Ok []) (λ _, Ok [])
    (λ _, Raise (Exn JSONDecodeError "Expecting value"))
    dumps_url rows_of_floats
    (λ _ v, default 0%float (head v))
    ascii_word.

(** The texts that [_rank_jobs] sends: the profile first, then one text
    per posting. *)
Definition rank_texts (env : Env) (jobs : list Job) : list string :=
  join " " (PAST_SKILLS env) :: ((λ j, title j +:+ " " +:+ summary j) <$> jobs).

(** The scored postings that [_rank_jobs] sorts. *)
Definition scores_of (env : Env) (base : list float) (embs : list (list float))
    (jobs : list Job) : list (float * Job) :=
  (λ p : list float * Job, (_cosine env base p.1, p.2)) <$> zip embs jobs.

(** The payload of the embeddings request for [texts]. *)
Definition embed_payload (texts : list string) : json :=
  JObj [("model", JStr EMBED_MODEL); ("input", JArr (JStr <$> texts))].

(** Three postings, and an embeddings endpoint that answers with the
    profile's vector and two more. *)
Definition short_reply_world : Env :=
  world ["newyork"] (λ _, Ok [job_a; job_b; job_c])
    (λ _, Ok (embeddings_reply [1; 0.2; 0.9]%float))
    (λ u _, Ok (chat_reply ("LETTER Dear " +:+ u))).

(** [a] comes before [b] in a descending order of scores: the score of
    [b] is at most that of [a]. *)
Definition not_below (a b : float * Job) : Prop :=
  PrimFloat.leb b.1 a.1 = true.

(** The pages that the scrapers ask for. *)
Definition craigslist_target (env : Env) (city : string) : string :=
  "https://" +:+ city +:+ ".craigslist.org/search/jjj?sort=date&query="
  +:+ replace_char " "%char "+"%char (QID env).
Definition remoteok_target (env : Env) : string :=
  "https://remoteok.com/remote-" +:+ replace_char " "%char "-"%char (QID env) +:+ "-jobs".
Definition wwr_target (env : Env) : string :=
  "https://weworkremotely.com/remote-jobs/search?term=" +:+ QID env.

(** What [_get_html] makes of a page, retries included. *)
Definition fetch_outcome (env : Env) (target : string) : res string :=
  (_get_html env target fresh).2.

(** What each board comes to, in the order of the tasks: its page, if it
    arrives, parsed. *)
Definition board_batches (env : Env) : list (res (list Job)) :=
  ((λ city, rbind (fetch_outcome env (craigslist_target env city))
                  (parse_craigslist env city)) <$> CR_SITES env)
  ++ [rbind (fetch_outcome env (remoteok_target env)) (parse_remoteok env);
      rbind (fetch_outcome env (wwr_target env)) (parse_wwr env)].

(** Two Craigslist sites; the pages of the first never arrive, the
    parser of RemoteOK raises, the second site lists one posting. *)
Definition patchy_world : Env :=
  mkEnv "python developer" ["newyork"; "boston"] "main_data" "Ada Quantum-Smith"
    ["AES-GCM"; "Django"] "Lead teams" "[action:core_rules]"
    (mkMood "calm" "measured mentor" 0.4 0.9)
    "2026-11-04" (λ _, "2026-11-06T09:00:00")
    (λ target _, if String.prefix "https://newyork" target
                 then Raise connection_error else Ok "<html>")
    (λ _ _ _, Raise connection_error)
    (λ city _, Ok [job_b]) (λ _, Raise (Exn KeyError "datetime")) (λ _, Ok [job_c])
    (λ _, Raise (Exn JSONDecodeError "Expecting value"))
    dumps_url rows_of_floats
    (λ _ v, default 0%float (head v))
    ascii_word.

(** [main] from the ranking on, for the working set [jobs]. *)
Definition after_gather (env : Env) (jobs : list Job) : M unit :=
  do ranked <- _rank_jobs env jobs;
  let chosen := take MAX_APPLY ranked in
  do_ print (MsgRanked (length jobs) (length chosen));
  do results <- mapM (_mega_generate env) chosen;
  do_ forM (handle_result env) (zip chosen results);
  do seen <- gets SEEN_URLS;
  do_ _save_seen env seen;
  do_ print MsgAllDone;
  os_remove (LOCK_FILE env).

(** One posting, endpoints that work, and a [json] that knows the cache
    with the url of that posting. *)
Definition done_world : Env :=
  mkEnv "python developer" ["newyork"] "main_data" "Ada Quantum-Smith"
    ["AES-GCM"; "Django"] "Lead teams" "[action:core_rules]"
    (mkMood "calm" "measured mentor" 0.4 0.9)
    "2026-11-04" (λ _, "2026-11-06T09:00:00")
    (λ _ _, Ok "<html>")
    (λ path payload _,
       if String.eqb path "embeddings" then Ok (embeddings_reply [1; 0.9]%float)
       else Ok (chat_reply "LETTER Dear reader"))
    (λ _ _, Ok [job_a]) (λ _, Ok []) (λ _, Ok [])
    (λ s, if String.eqb s cache_text then Ok (JArr [JStr (url job_a)])
          else if String.prefix "LETTER " s
          then Ok (JObj [("cover_letter", JStr (String.substring 7 (String.length s) s))])
          else Raise (Exn JSONDecodeError "Expecting value"))
    (λ j, match j with
          | JArr _ => cache_text
          | _ => dumps_url j
          end)
    rows_of_floats
    (λ _ v, default 0%float (head v))
    ascii_word.

Definition is_get (e : net_event) : bool :=
  match e with
  | Get _ => true
  | _ => false
  end.

(** The requests in the network log: to the OpenAI endpoints, and for
    pages. *)
Definition posts_made (st : State) : nat :=
  length (filter (λ e, is_post e = true) (net st)).
Definition pages_asked (st : State) : nat :=
  length (filter (λ e, is_get e = true) (net st)).

(** [m] raises [measure] by at most [k]. *)
Definition raises_by {A} (measure : State → nat) (k : nat) (m : M A) : Prop :=
  ∀ st, measure (m st).1 ≤ measure st + k.

(** *** Replies of another shape *)

(** The texts of two replies that parse and are no record with a text
    letter: a list, and a record whose letter is [null]. *)
Definition QUOTE : string := String (Ascii.ascii_of_nat 34) "".
Definition list_reply : string := "[]".
Definition null_letter_reply : string :=
  "{" +:+ QUOTE +:+ "cover_letter" +:+ QUOTE +:+ ": null}".

(** A [json.loads] that knows these two texts, and [LETTER x] as before. *)
Definition loads_reply (s : string) : res json :=
  if String.prefix "LETTER " s
  then Ok (JObj [("cover_letter", JStr (String.substring 7 (String.length s) s))])
  else if String.eqb s list_reply then Ok (JArr [])
  else if String.eqb s null_letter_reply then Ok (JObj [("cover_letter", JNull)])
  else Raise (Exn JSONDecodeError "Expecting value").

(** Three postings with scores 0.9, 0.5 and 0.2; the chat endpoint
    answers the request for the second with the text [reply]. *)
Definition odd_reply_world (reply : string) : Env :=
  mkEnv "python developer" ["newyork"] "main_data" "Ada Quantum-Smith"
    ["AES-GCM"; "Django"] "Lead teams" "[action:core_rules]"
    (mkMood "calm" "measured mentor" 0.4 0.9)
    "2026-11-04"
    (λ n, "2026-11-06T09:00:0" +:+ String (ascii_of_nat (48 + n)) "")
    (λ _ _, Ok "<html>")
    (λ path payload _,
       if String.eqb path "embeddings"
       then Ok (embeddings_reply [1; 0.9; 0.5; 0.2]%float)
       else if String.eqb (user_content payload) (url job_b)
       then Ok (chat_reply reply)
       else Ok (chat_reply ("LETTER Dear " +:+ user_content payload)))
    (λ _ _, Ok [job_a; job_b; job_c]) (λ _, Ok []) (λ _, Ok [])
    loads_reply
    dumps_url rows_of_floats
    (λ _ v, default 0%float (head v))
    ascii_word.

(** Where a run stands that stopped in the loop at the second of these
    postings: the first is done but for the cache file, nothing of the
    third is there, and the lock is left. All three generation requests
    and the embeddings request were made. *)
Definition stopped_at_second (env : Env) (st : State) : Prop :=
  dom (fs st)
  = {[ "main_data/.lock"; "main_data/followups.txt";
       "main_data/2026-11-04_Python_Developer_Craigslist-newyork.md" ]}
  ∧ fs st !! letter_path env job_b = None
  ∧ fs st !! letter_path env job_c = None
  ∧ fs st !! SEEN_FILE env = None
  ∧ fs st !! "main_data/followups.txt"
    = Some ("2026-11-06T09:00:00||https://newyork.craigslist.org/a.html"
            +:+ String "010"%char "")
  ∧ SEEN_URLS st = {[ "https://newyork.craigslist.org/a.html" ]}
  ∧ stdout st
    = [MsgWritten "Python Developer"
         "main_data/2026-11-04_Python_Developer_Craigslist-newyork.md";
       MsgRanked 3 3; MsgMood]
  ∧ posts_made st = 4.

(** A result that is neither a failure record nor a record with a text
    letter or none. *)
Definition wrong_shape (r : json) : bool :=
  match r with
  | JObj kv =>
      match assoc "data_error" kv, assoc "cover_letter" kv with
      | Some _, _ => false
      | None, None => false
      | None, Some (JStr _) => false
      | None, Some _ => true
      end
  | _ => true
  end.

(** *** The journal *)

(** The journal after the follow-ups of [jobs], the first of which reads
    the clock for the [n]-th time, when it held [old] before: each
    follow-up puts its line, the time and the url with two bars between
    them, in front of the journal as it reads it. *)
Fixpoint journal_after (env : Env) (n : nat) (jobs : list Job) (old : string) : string :=
  match jobs with
  | [] => old
  | job :: jobs' =>
      journal_after env (S n) jobs'
        (eta_iso env n +:+ "||" +:+ url job +:+ String "010"%char ""
         +:+ universal_newlines old)
  end.

(** The lines of these follow-ups, the line of the last posting first. *)
Fixpoint journal_lines (env : Env) (n : nat) (jobs : list Job) : string :=
  match jobs with
  | [] => ""
  | job :: jobs' =>
      journal_lines env (S n) jobs'
      +:+ eta_iso env n +:+ "||" +:+ url job +:+ String "010"%char ""
  end.

(** A text without a carriage return. *)
Definition no_cr (s : string) : bool :=
  all_chars (λ c, negb (Ascii.eqb c "013"%char)) s.

(** A journal of one line that ends in a carriage return and a line
    feed. *)
Definition old_journal : State :=
  mkState {[ "main_data/followups.txt" :=
               "2026-11-01T08:00:00||https://remoteok.com/old"
               +:+ String "013"%char (String "010"%char "") ]}
          ∅ [] [] 0.

(** * Properties *)

(** ** What a computation leaves alone *)

Section Preserves.
Context {V : Type} (view : State → V).
Local Abbreviation preserves := (preserves view).

Lemma preserves_ret {A} (a : A) : preserves (ret a).
Proof. by intros st. Qed.

Lemma preserves_raise {A} (e : exn) : preserves (@raise A e).
Proof. by intros st. Qed.

Lemma preserves_lift {A} (r : res A) : preserves (lift r).
Proof. by intros st. Qed.

Lemma preserves_gets {A} (f : State → A) : preserves (gets f).
Proof. by intros st. Qed.

Lemma preserves_bind {A B} (m : M A) (k : A → M B) :
  preserves m → (∀ a, preserves (k a)) → preserves (bind m k).
Proof.
  intros Hm Hk st. unfold bind. specialize (Hm st).
  destruct (m st) as [st' [a|e]]; simpl in *; [|done].
  by rewrite Hk.
Qed.

Lemma preserves_catch {A} (m : M A) : preserves m → preserves (catch m).
Proof.
  intros Hm st. unfold catch. specialize (Hm st).
  by destruct (m st) as [st' r].
Qed.

Lemma preserves_mapM {A B} (f : A → M B) (l : list A) :
  Forall (λ x, preserves (f x)) l → preserves (mapM f l).
Proof.
  induction 1 as [|x l Hx _ IH]; simpl.
  - apply preserves_ret.
  - apply preserves_bind; [apply Hx|]. intros y.
    apply preserves_bind; [apply IH|]. intros ys. apply preserves_ret.
Qed.

Lemma preserves_forM {A} (f : A → M unit) (l : list A) :
  (∀ x, preserves (f x)) → preserves (forM f l).
Proof.
  intros Hf. induction l as [|x l IH]; simpl.
  - apply preserves_ret.
  - apply preserves_bind; [apply Hf|]. intros _. apply IH.
Qed.

Lemma preserves_retry_from {A} (r : Retry) (fn : nat → M A) :
  (∀ z st, view (push_net (Sleep z) st) = view st) →
  (∀ n, preserves (fn n)) →
  ∀ remaining n, preserves (retry_from remaining r fn n).
Proof.
  intros Hsleep Hfn remaining.
  induction remaining as [|k IH]; intros n st; simpl;
    specialize (Hfn n st); destruct (fn n st) as [st' [a|e]]; simpl in *;
    try done; destruct (retry_on r e); simpl; try done.
  by rewrite IH, Hsleep.
Qed.
End Preserves.

Lemma get_html_posts_only env target : preserves posts_only (_get_html env target).
Proof.
  apply preserves_retry_from; [done|]. intros n.
  apply preserves_bind; [done|]. intros _. apply preserves_lift.
Qed.

Lemma openai_post_offline env path payload :
  preserves offline (_openai_post env path payload).
Proof.
  apply preserves_retry_from; [done|]. intros n.
  apply preserves_bind; [done|]. intros _. apply preserves_lift.
Qed.

Lemma scrapers_posts_only env :
  Forall (λ task : M (list Job), preserves posts_only (catch task))
    (gather_tasks env).
Proof.
  assert (∀ target (parse : string → res (list Job)),
    preserves posts_only (catch (do html <- _get_html env target; lift (parse html)))) as H.
  { intros target parse. apply preserves_catch, preserves_bind.
    - apply get_html_posts_only.
    - intros html. apply preserves_lift. }
  apply Forall_app. split.
  - apply Forall_fmap, Forall_forall. intros city _. apply H.
  - repeat constructor; apply H.
Qed.

Lemma gather_posts_only env : preserves posts_only (_gather env).
Proof.
  apply preserves_bind.
  - apply preserves_mapM, scrapers_posts_only.
  - intros results. apply preserves_bind; [apply preserves_gets|].
    intros seen. apply preserves_ret.
Qed.

Lemma embed_offline env texts : preserves offline (_embed env texts).
Proof.
  apply preserves_bind; [apply openai_post_offline|].
  intros r. apply preserves_lift.
Qed.

Lemma gpt_offline env messages temp top_p :
  preserves offline (_gpt env messages temp top_p).
Proof.
  apply preserves_bind; [apply openai_post_offline|].
  intros r. apply preserves_lift.
Qed.

Lemma rank_jobs_offline env jobs : preserves offline (_rank_jobs env jobs).
Proof.
  destruct jobs as [|j jobs]; [apply preserves_ret|].
  apply preserves_bind; [apply embed_offline|]. intros embeds.
  apply preserves_bind; [apply preserves_lift|]. intros base.
  apply preserves_bind; [apply preserves_lift|]. intros ranked.
  apply preserves_ret.
Qed.

Lemma mega_generate_offline env job : preserves offline (_mega_generate env job).
Proof.
  apply preserves_bind.
  - apply preserves_catch, preserves_bind; [apply gpt_offline|].
    intros raw. apply preserves_lift.
  - intros [v|e]; apply preserves_ret.
Qed.

(** ** The run up to ranking *)

(** A second run finds the lock and leaves at once. *)
Lemma main_locked env st :
  is_Some (fs st !! LOCK_FILE env) →
  main env st = (push_stdout MsgLocked st, Ok tt).
Proof.
  intros [data Hlock]. unfold main, bind, catch, os_open_excl.
  by rewrite Hlock.
Qed.

(** The early return: nothing after [print("No new jobs.")] runs. *)
Lemma main_no_new_jobs env st st1 :
  fs st !! LOCK_FILE env = None →
  _gather env (lock_taken env st) = (st1, Ok []) →
  main env st = (push_stdout MsgNoNewJobs st1, Ok tt).
Proof.
  intros Hlock Hgather. unfold main, bind, catch, os_open_excl.
  rewrite Hlock. simpl. fold (lock_taken env st). by rewrite Hgather.
Qed.

(** [_gather] leaves the lock file where it is. *)
Lemma gather_keeps_lock env st :
  fs (_gather env (lock_taken env st)).1 !! LOCK_FILE env = Some "".
Proof.
  pose proof (gather_posts_only env (lock_taken env st)) as H.
  injection H as Hfs _ _ _ _. rewrite Hfs. simpl. apply lookup_insert_eq.
Qed.

(** With no new posting the run ends with the lock file in place, for
    every world and every state in which the lock was free. *)
Lemma main_no_new_jobs_lock env st st1 :
  fs st !! LOCK_FILE env = None →
  _gather env (lock_taken env st) = (st1, Ok []) →
  fs (main env st).1 !! LOCK_FILE env = Some "".
Proof.
  intros Hlock Hgather. rewrite (main_no_new_jobs env st st1 Hlock Hgather).
  simpl. pose proof (gather_keeps_lock env st) as H.
  by rewrite Hgather in H.
Qed.

(** An exception out of [_rank_jobs] leaves [main] as it is, past the two
    lines that release the lock. *)
Lemma main_rank_failure env st st1 j jobs st2 e :
  fs st !! LOCK_FILE env = None →
  _gather env (lock_taken env st) = (st1, Ok (j :: jobs)) →
  _rank_jobs env (j :: jobs) st1 = (st2, Raise e) →
  main env st = (st2, Raise e) ∧ fs st2 !! LOCK_FILE env = Some "".
Proof.
  intros Hlock Hgather Hrank. split.
  - unfold main, bind, catch, os_open_excl.
    rewrite Hlock. simpl. fold (lock_taken env st). rewrite Hgather.
    by rewrite Hrank.
  - pose proof (rank_jobs_offline env (j :: jobs) st1) as H.
    rewrite Hrank in H. injection H as Hfs _ _ _. rewrite Hfs.
    pose proof (gather_keeps_lock env st) as H. by rewrite Hgather in H.
Qed.

(** ** The process lock *)

(** C1, where the code departs from the claim that the lock is released on
    every exit path. In the world without postings the run takes the lock,
    prints "No new jobs." and returns normally with the lock file still in
    place: the [return] of the early exit skips [os.remove(LOCK_FILE)].
    The next run therefore finds the lock, reports that another run is
    active and does nothing. *)
Theorem lock_left_after_no_new_jobs :
  let st := (main quiet_world fresh).1 in
  fs fresh !! LOCK_FILE quiet_world = None
  ∧ main quiet_world fresh = (st, Ok tt)
  ∧ stdout st = [MsgNoNewJobs; MsgMood]
  ∧ fs st !! LOCK_FILE quiet_world = Some ""
  ∧ main quiet_world st = (push_stdout MsgLocked st, Ok tt).
Proof.
  cbv zeta. split_and!; vm_compute; reflexivity.
Qed.

(** ** Ranking *)

(** Two postings that differ and whose scores are equal make [sorted]
    raise, whatever the scores and the postings are. *)
Lemma sorted_tie_raises (s1 s2 : float) (j1 j2 : Job) :
  PrimFloat.eqb s1 s2 = true → j1 ≠ j2 →
  py_sorted tuple_lt true [(s1, j1); (s2, j2)] = Raise job_lt_error.
Proof.
  intros Heq Hne. unfold py_sorted. simpl. unfold tuple_lt. simpl.
  rewrite Heq. by destruct (decide (j1 = j2)).
Qed.

(** C2, where the code departs from the claim that ranking returns the
    postings in descending, stable order. With the claim's own scores
    0.9, 0.2, 0.9 and 0.5 on four different postings, [sorted] compares
    the two tuples whose score is 0.9, falls through to the postings and
    raises [TypeError], because [Job] defines no order; [_rank_jobs] and
    [main] raise with it. The same sort returns the descending order
    when the third score is 0.8, and keeps the input order of a tie when
    the tied postings are equal. *)
Theorem rank_jobs_tie_raises :
  py_sorted tuple_lt true
    [(0.9, job_a); (0.2, job_b); (0.9, job_c); (0.5, job_d)]%float
  = Raise job_lt_error
  ∧ (_rank_jobs tie_world [job_a; job_b; job_c; job_d] fresh).2 = Raise job_lt_error
  ∧ (main tie_world fresh).2 = Raise job_lt_error
  ∧ py_sorted tuple_lt true
      [(0.9, job_a); (0.2, job_b); (0.8, job_c); (0.5, job_d)]%float
    = Ok [(0.9, job_a); (0.8, job_c); (0.5, job_d); (0.2, job_b)]%float
  ∧ py_sorted tuple_lt true
      [(0.9, job_a); (0.2, job_b); (0.9, job_a); (0.5, job_d)]%float
    = Ok [(0.9, job_a); (0.9, job_a); (0.5, job_d); (0.2, job_b)]%float.
Proof. cbv zeta. split_and!; vm_compute; reflexivity. Qed.

(** C3, where the code departs from the claim that a failing scorer ends
    the run without selections and with the lock released. When the
    embeddings endpoint answers 500 on each of its four attempts, and
    likewise when it answers with no vector at all, the exception leaves
    [_rank_jobs] and [main]: the run ends with the exception, never
    reaches [_save_seen] or "All done.", and the lock file stays. *)
Theorem scorer_failure_aborts_run :
  (let st := (main scorer_down_world fresh).1 in
   main scorer_down_world fresh = (st, Raise retry_error)
   ∧ stdout st = [MsgMood]
   ∧ fs st !! SEEN_FILE scorer_down_world = None
   ∧ fs st !! LOCK_FILE scorer_down_world = Some ""
   ∧ length (filter (λ e, is_post e = true) (net st)) = 4)
  ∧ (let st := (main scorer_empty_world fresh).1 in
     main scorer_empty_world fresh
     = (st, Raise (Exn IndexError "index 0 is out of bounds"))
     ∧ stdout st = [MsgMood]
     ∧ fs st !! SEEN_FILE scorer_empty_world = None
     ∧ fs st !! LOCK_FILE scorer_empty_world = Some "").
Proof. cbv zeta. split_and!; vm_compute; reflexivity. Qed.

(** ** The empty working set *)

(** C7: when no posting is left after filtering, the ranker gives the
    empty list back without touching the state (so without a request),
    and the run prints "No new jobs." and returns normally without one
    [POST], the only way to the scoring and generation endpoints. *)
Theorem empty_input_short_circuit env st st1 :
  fs st !! LOCK_FILE env = None →
  _gather env (lock_taken env st) = (st1, Ok []) →
  (∀ st', _rank_jobs env [] st' = (st', Ok []))
  ∧ main env st = (push_stdout MsgNoNewJobs st1, Ok tt)
  ∧ filter (λ e, is_post e = true) (net (main env st).1)
    = filter (λ e, is_post e = true) (net st).
Proof.
  intros Hlock Hgather. split; [done|].
  rewrite (main_no_new_jobs env st st1 Hlock Hgather). split; [done|].
  pose proof (gather_posts_only env (lock_taken env st)) as H.
  rewrite Hgather in H. injection H as _ _ _ _ H. exact H.
Qed.

Lemma empty_input_short_circuit_quiet :
  main quiet_world fresh
  = (push_stdout MsgNoNewJobs (_gather quiet_world (lock_taken quiet_world fresh)).1,
     Ok tt)
  ∧ filter (λ e, is_post e = true) (net (main quiet_world fresh).1) = [].
Proof.
  destruct (empty_input_short_circuit quiet_world fresh
              (_gather quiet_world (lock_taken quiet_world fresh)).1)
    as (_ & Hmain & Hposts).
  - vm_compute. reflexivity.
  - vm_compute. reflexivity.
  - split; [exact Hmain | exact Hposts].
Defined.

(** ** Filtering *)

Lemma mapM_catch_ok {A} (tasks : list (M A)) st :
  ∃ st' results, mapM catch tasks st = (st', Ok results).
Proof.
  revert st. induction tasks as [|task tasks IH]; intros st; simpl.
  - by eexists _, _.
  - unfold bind at 1. unfold catch at 1.
    destruct (task st) as [st1 r]. unfold bind at 1.
    destruct (IH st1) as (st2 & rs & ->). by eexists _, _.
Qed.

Lemma keep_unseen_fetched seen batches :
  mjoin (keep_unseen seen <$> batches) = filter (λ j, url j ∉ seen) (fetched batches).
Proof.
  unfold fetched. induction batches as [|[js|e] batches IH]; [done|..].
  - change (keep_unseen seen (Ok js) ++ mjoin (keep_unseen seen <$> batches)
            = filter (λ j, url j ∉ seen)
                (js ++ mjoin ((λ b, match b with Ok js => js | Raise _ => [] end)
                              <$> batches))).
    by rewrite filter_app, IH.
  - exact IH.
Qed.

(** C4, the claim as the code has it: [_gather] never raises, and what it
    passes on is exactly the postings of the boards that answered, in
    board order, without those whose url is in [SEEN_URLS] as it was when
    the run started; so no posting it passes on has a seen url, and every
    posting with an unseen url is passed on, as often as it was found. *)
Theorem gather_drops_seen_only env st :
  ∃ st' batches,
    mapM catch (gather_tasks env) st = (st', Ok batches)
    ∧ _gather env st
      = (st', Ok (filter (λ j, url j ∉ SEEN_URLS st) (fetched batches)))
    ∧ Forall (λ j, url j ∉ SEEN_URLS st)
        (filter (λ j, url j ∉ SEEN_URLS st) (fetched batches)).
Proof.
  destruct (mapM_catch_ok (gather_tasks env) st) as (st' & batches & Hrun).
  exists st', batches. split; [done|]. split.
  - unfold _gather, bind at 1. rewrite Hrun. unfold bind, gets, ret.
    rewrite keep_unseen_fetched.
    pose proof (preserves_mapM posts_only catch _ (scrapers_posts_only env) st) as H.
    rewrite Hrun in H. injection H as _ Hseen _ _ _. simpl in Hseen.
    by rewrite Hseen.
  - apply Forall_forall. intros j Hj. by apply list_elem_of_filter in Hj as [? _].
Qed.

(** C4, the claim as stated fails: two Craigslist sites that list the same
    posting put its url twice into the working set. *)
Lemma gather_keeps_duplicate_urls :
  ∃ st' jobs,
    _gather nearby_world fresh = (st', Ok jobs) ∧ ¬ NoDup (url <$> jobs).
Proof.
  eexists _, _. split; [vm_compute; reflexivity|].
  intros Hnodup. apply NoDup_cons in Hnodup as [Hin _].
  apply Hin. simpl. left.
Qed.

(** ** Persisting the cache *)

Lemma seen_tmp_ne_SEEN_FILE env : seen_tmp env ≠ SEEN_FILE env.
Proof.
  unfold seen_tmp, SEEN_FILE, path_join. intros H.
  apply (inj (String.app (CACHE_DIR env))) in H. discriminate H.
Qed.

Lemma str_take_all s : str_take (String.length s) s = s.
Proof. induction s as [|c s IH]; simpl; [done|by rewrite IH]. Qed.

(** The last stage of a write is the whole text. *)
Lemma write_text_states_last p data f :
  last (write_text_states p data f) = Some (<[p := data]> f).
Proof.
  unfold write_text_states. rewrite seq_S, fmap_app, last_app.
  simpl. by rewrite str_take_all.
Qed.

Lemma save_seen_run env seen st :
  _save_seen env seen st
  = (set_fs (<[SEEN_FILE env := seen_text env seen]>
               (delete (seen_tmp env) (<[seen_tmp env := seen_text env seen]> (fs st))))
            (set_fs (<[seen_tmp env := seen_text env seen]> (fs st)) st),
     Ok tt).
Proof.
  unfold _save_seen, save_seen_prog, seen_text. simpl fs_run.
  unfold bind, write_text, modify, path_replace, rename. simpl.
  by rewrite lookup_insert_eq.
Qed.

(** A program that meets no error runs to the file system that
    [fs_final] gives, and that is the last stage an observer sees. *)
Lemma fs_run_final prog st f' :
  fs_final prog (fs st) = Some f' → fs_run prog st = (set_fs f' st, Ok tt).
Proof.
  revert st f'. induction prog as [p data|src dst|a IHa b IHb]; intros st f' H.
  - injection H as <-. reflexivity.
  - simpl in *. unfold path_replace. by rewrite H.
  - simpl in H. destruct (fs_final a (fs st)) as [f1|] eqn:Ha; [|done].
    simpl in H. simpl fs_run. unfold bind. rewrite (IHa _ _ Ha).
    by rewrite (IHb (set_fs f1 st) f' H).
Qed.

Lemma fs_run_cases prog st :
  match fs_final prog (fs st) with
  | Some f' => fs_run prog st = (set_fs f' st, Ok tt)
  | None => ∃ st' e, fs_run prog st = (st', Raise e)
  end.
Proof.
  revert st. induction prog as [p data|src dst|a IHa b IHb]; intros st.
  - reflexivity.
  - simpl. unfold path_replace. destruct (rename src dst (fs st)); eauto.
  - simpl. unfold bind. specialize (IHa st).
    destruct (fs_final a (fs st)) as [f1|]; simpl.
    + rewrite IHa. specialize (IHb (set_fs f1 st)). simpl in IHb.
      destruct (fs_final b f1) as [f2|]; [by rewrite IHb|].
      destruct IHb as (st' & e & ->). eauto.
    + destruct IHa as (st' & e & ->). eauto.
Qed.

Lemma fs_observe_last prog f f' :
  fs_final prog f = Some f' → last (fs_observe prog f) = Some f'.
Proof.
  revert f f'. induction prog as [p data|src dst|a IHa b IHb]; intros f f' H.
  - injection H as <-. apply write_text_states_last.
  - simpl in *. by rewrite H.
  - simpl in *. destruct (fs_final a f) as [f1|] eqn:Ha; [|done].
    simpl in H. by rewrite last_app, (IHb _ _ H).
Qed.

(** Whatever the program: when it returns, the file system it leaves is
    the last stage that was there to see. *)
Lemma fs_run_stages prog st :
  (fs_run prog st).2 = Ok tt →
  last (fs_observe prog (fs st)) = Some (fs (fs_run prog st).1).
Proof.
  intros Hok. pose proof (fs_run_cases prog st) as Hrun.
  destruct (fs_final prog (fs st)) as [f'|] eqn:Hfinal.
  - rewrite Hrun. by apply fs_observe_last.
  - destruct Hrun as (st' & e & Hrun). by rewrite Hrun in Hok.
Qed.

(** The stages of [_save_seen]: those of the write to the temporary file,
    then the outcome of the rename. *)
Lemma save_seen_stages env seen f :
  fs_observe (save_seen_prog env seen) f
  = write_text_states (seen_tmp env) (seen_text env seen) f
    ++ [<[SEEN_FILE env := seen_text env seen]>
          (delete (seen_tmp env) (<[seen_tmp env := seen_text env seen]> f))].
Proof.
  unfold save_seen_prog, seen_text. cbn [fs_observe fs_final].
  unfold rename. by rewrite lookup_insert_eq.
Qed.

(** C5: persisting is the program [save_seen_prog]: the sorted urls, as
    JSON text, are written to the temporary file, which is then renamed
    onto the cache file. The stages that an observer of the file system
    can see while a program runs end, when it returns, with the file
    system that the run leaves. Of the stages of this program, every one
    shows the cache file either as it was before or with the whole new
    text; all stages before the last differ from the start at the
    temporary file only; and the last stage, with which the call
    returns, has the whole new text in the cache file and no temporary
    file. For the cache with one url the stages are listed in full. *)
Theorem save_seen_atomic env seen st :
  let text := json_dumps env (JArr (JStr <$> sorted_strs seen)) in
  let stages := fs_observe (save_seen_prog env seen) (fs st) in
  _save_seen env seen = fs_run (save_seen_prog env seen)
  ∧ (∀ prog st0, (fs_run prog st0).2 = Ok tt →
       last (fs_observe prog (fs st0)) = Some (fs (fs_run prog st0).1))
  ∧ Sorted String.le (sorted_strs seen)
  ∧ sorted_strs seen ≡ₚ elements seen
  ∧ Forall (λ f, f !! SEEN_FILE env = fs st !! SEEN_FILE env
                 ∨ f !! SEEN_FILE env = Some text)
           (fs st :: stages)
  ∧ (∃ before st',
        stages = before ++ [fs st']
        ∧ Forall (λ f, ∀ p, p ≠ seen_tmp env → f !! p = fs st !! p) before
        ∧ _save_seen env seen st = (st', Ok tt)
        ∧ fs st' !! SEEN_FILE env = Some text
        ∧ fs st' !! seen_tmp env = None
        ∧ ∀ p, p ≠ SEEN_FILE env → p ≠ seen_tmp env → fs st' !! p = fs st !! p)
  ∧ fs_observe (save_seen_prog cache_world {[url job_a]}) ∅
    = ((λ k, {[ "main_data/seen.tmp" := str_take k "[a.html]" ]}) <$> seq 0 9)
      ++ [ {[ "main_data/seen.json" := "[a.html]" ]} ].
Proof.
  pose proof (seen_tmp_ne_SEEN_FILE env) as Hne.
  cbv zeta. split; [reflexivity|].
  split; [apply fs_run_stages|].
  split; [apply Sorted_merge_sort; apply _|].
  split; [apply merge_sort_Permutation|].
  rewrite save_seen_stages. split; [|split].
  - constructor; [by left|]. apply Forall_app. split.
    + apply Forall_fmap, Forall_forall. intros k _. left. simpl.
      by rewrite lookup_insert_ne.
    + constructor; [|constructor]. right. apply lookup_insert_eq.
  - exists (write_text_states (seen_tmp env) (seen_text env seen) (fs st)),
           (_save_seen env seen st).1.
    rewrite save_seen_run. split; [reflexivity|]. split; [|split; [reflexivity|]].
    + apply Forall_fmap, Forall_forall. intros k _ p Hp. simpl.
      by rewrite lookup_insert_ne.
    + simpl. split; [apply lookup_insert_eq|]. split.
      * rewrite lookup_insert_ne by (intros H; by apply Hne).
        apply lookup_delete_eq.
      * intros p Hp1 Hp2.
        by rewrite lookup_insert_ne, lookup_delete_ne, lookup_insert_ne.
  - vm_compute. reflexivity.
Qed.

(** ** Retrying *)

(** The unbounded loop of [tenacity] ends: with more fuel than attempts
    that remain it returns, and what it returns is [retry_from]. *)
Lemma retry_loop_retry_from {A} (r : Retry) (fn : nat → M A) fuel n st :
  max_attempt_number r - n < fuel →
  retry_loop fuel r fn n st
  = Some (retry_from (max_attempt_number r - n) r fn n st).
Proof.
  revert n st. induction fuel as [|fuel IH]; intros n st Hfuel; [lia|].
  simpl. destruct (max_attempt_number r - n) as [|k] eqn:Hleft; simpl;
    destruct (fn n st) as [st' [a|e]]; try done;
    destruct (retry_on r e); try done;
    unfold stop_after_attempt; case_bool_decide; try lia; try done.
  rewrite IH by lia. by replace (max_attempt_number r - S n) with k by lia.
Qed.

Lemma retry_loop_retrying {A} (r : Retry) (fn : nat → M A) extra st :
  retry_loop (S (max_attempt_number r - 1) + extra) r fn 1 st
  = Some (retrying r fn st).
Proof. unfold retrying. apply retry_loop_retry_from. lia. Qed.

Lemma retry_from_events {A} r ev (outcome : nat → res A) remaining n st :
  ∃ retries,
    retries ≤ remaining
    ∧ net (retry_from remaining r (request ev outcome) n st).1
      = retry_events r ev n retries ++ net st.
Proof.
  revert n st. induction remaining as [|k IH]; intros n st; simpl.
  { exists 0. split; [lia|]. destruct (outcome n) as [a|e]; [done|].
    by destruct (retry_on r e). }
  destruct (outcome n) as [a|e]; [exists 0; split; [lia|done]|].
  destruct (retry_on r e); [|exists 0; split; [lia|done]].
  destruct (IH (S n) (push_net (Sleep (wait_exponential r n)) (push_net ev st)))
    as (retries & Hle & ->).
  exists (S retries). split; [lia|]. simpl. by rewrite <- app_assoc.
Qed.

Lemma retry_events_attempts r ev n retries :
  is_sleep ev = false →
  length (filter (λ e, is_sleep e = false) (retry_events r ev n retries))
  = S retries.
Proof.
  intros Hev. revert n. induction retries as [|k IH]; intros n; simpl.
  - by rewrite filter_cons_True.
  - rewrite filter_app, length_app, IH.
    rewrite filter_cons_False by done. rewrite filter_cons_True by done.
    simpl. lia.
Qed.

Lemma wait_exponential_bounds r n :
  (0 ≤ wait_min r ≤ wait_max r)%Z →
  (wait_min r ≤ wait_exponential r n ≤ wait_max r)%Z.
Proof.
  intros H. unfold wait_exponential.
  generalize (multiplier r * 2 ^ (Z.of_nat n - 1))%Z. lia.
Qed.

Lemma wait_exponential_mono r n :
  (0 ≤ multiplier r)%Z →
  (wait_exponential r n ≤ wait_exponential r (S n))%Z.
Proof.
  intros Hm. unfold wait_exponential.
  assert (multiplier r * 2 ^ (Z.of_nat n - 1)
          ≤ multiplier r * 2 ^ (Z.of_nat (S n) - 1))%Z as H.
  { apply Z.mul_le_mono_nonneg_l; [done|]. apply Z.pow_le_mono_r; lia. }
  revert H.
  generalize (multiplier r * 2 ^ (Z.of_nat n - 1))%Z.
  generalize (multiplier r * 2 ^ (Z.of_nat (S n) - 1))%Z. lia.
Qed.

Lemma retry_events_within r ev n retries attempts :
  is_sleep ev = false →
  (0 ≤ wait_min r ≤ wait_max r)%Z →
  retries < attempts →
  within_policy ev attempts (wait_min r) (wait_max r) (retry_events r ev n retries).
Proof.
  intros Hev Hwait Hlt. split.
  - rewrite retry_events_attempts by done. lia.
  - clear Hlt. revert n. induction retries as [|k IH]; intros n; simpl.
    + constructor; [by destruct ev|constructor].
    + apply Forall_app. split; [apply IH|].
      constructor; [by apply wait_exponential_bounds|].
      constructor; [by destruct ev|constructor].
Qed.

(** A call under [@retry] with a positive attempt ceiling stays within
    its policy. *)
Lemma retrying_within {A} r ev (outcome : nat → res A) st :
  is_sleep ev = false →
  (0 ≤ wait_min r ≤ wait_max r)%Z →
  0 < max_attempt_number r →
  ∃ evs,
    net (retrying r (request ev outcome) st).1 = evs ++ net st
    ∧ within_policy ev (max_attempt_number r) (wait_min r) (wait_max r) evs.
Proof.
  intros Hev Hwait Hpos. unfold retrying.
  destruct (retry_from_events r ev outcome (max_attempt_number r - 1) 1 st)
    as (retries & Hle & Hnet).
  eexists. split; [exact Hnet|]. apply retry_events_within; [done..|lia].
Qed.

(** C8: both retry policies have a hard ceiling. Whatever the network
    answers, the loop of [tenacity] around [_get_html] ends, after at
    most 3 requests with waits between 2 and 20 seconds, and the loop
    around [_openai_post] ends after at most 4 requests with waits
    between 4 and 60 seconds. The wait never shrinks from one attempt to
    the next and doubles between its floor and its cap. *)
Theorem retry_policies_bounded env :
  (∀ target extra st, ∃ evs,
      retry_loop (3 + extra) GET_HTML_RETRY (get_once env target) 1 st
      = Some (_get_html env target st)
      ∧ net (_get_html env target st).1 = evs ++ net st
      ∧ within_policy (Get target) 3 2 20 evs)
  ∧ (∀ path payload extra st, ∃ evs,
      retry_loop (4 + extra) OPENAI_RETRY (post_once env path payload) 1 st
      = Some (_openai_post env path payload st)
      ∧ net (_openai_post env path payload st).1 = evs ++ net st
      ∧ within_policy (Post ("/" +:+ path) payload) 4 4 60 evs)
  ∧ (∀ n, (wait_exponential GET_HTML_RETRY n
           ≤ wait_exponential GET_HTML_RETRY (S n))%Z)
  ∧ (∀ n, (wait_exponential OPENAI_RETRY n
           ≤ wait_exponential OPENAI_RETRY (S n))%Z)
  ∧ wait_exponential GET_HTML_RETRY <$> seq 1 7 = [2; 2; 4; 8; 16; 20; 20]%Z
  ∧ wait_exponential OPENAI_RETRY <$> seq 1 7 = [4; 4; 8; 16; 32; 60; 60]%Z.
Proof.
  split; [|split; [|split; [|split; [|split]]]].
  - intros target extra st.
    destruct (retrying_within GET_HTML_RETRY (Get target) (http_get env target) st)
      as (evs & Hnet & Hwithin); [done|simpl; lia|simpl; lia|].
    exists evs. split; [|done].
    apply (retry_loop_retrying GET_HTML_RETRY).
  - intros path payload extra st.
    destruct (retrying_within OPENAI_RETRY (Post ("/" +:+ path) payload)
                (http_post env path payload) st)
      as (evs & Hnet & Hwithin); [done|simpl; lia|simpl; lia|].
    exists evs. split; [|done].
    apply (retry_loop_retrying OPENAI_RETRY).
  - intros n. by apply wait_exponential_mono.
  - intros n. by apply wait_exponential_mono.
  - reflexivity.
  - reflexivity.
Qed.

(** ** The loop over the results *)

Lemma ends_md_app a b : ends_md b = true → ends_md (a +:+ b) = true.
Proof.
  intros Hb. induction a as [|c a IH]; [done|].
  change (String.eqb (String c (a +:+ b)) ".md" || ends_md (a +:+ b) = true).
  rewrite IH. apply orb_true_r.
Qed.

Lemma letter_path_ne_follow_path env job : letter_path env job ≠ follow_path env.
Proof.
  unfold letter_path, follow_path, path_join. intros H.
  apply (inj (String.app (CACHE_DIR env))) in H.
  apply (inj (String.app "/")) in H.
  assert (ends_md "followups.txt" = true) as Hmd.
  { rewrite <- H. by do 5 apply ends_md_app. }
  vm_compute in Hmd. discriminate Hmd.
Qed.

Lemma handle_result_failed env job kv err st :
  assoc "data_error" kv = Some err →
  handle_result env (job, JObj kv) st
  = (push_stdout (MsgFailed (title job) err) st, Ok tt).
Proof.
  intros Herr. unfold handle_result, bind, lift, contains, getitem. simpl.
  rewrite Herr. by rewrite bool_decide_eq_true_2 by eauto.
Qed.

Lemma handle_result_accepted env job kv text st :
  assoc "data_error" kv = None →
  default (JStr "") (assoc "cover_letter" kv) = JStr text →
  handle_result env (job, JObj kv) st = (accepted env job text st, Ok tt).
Proof.
  intros Herr Hletter. unfold handle_result, bind, lift, contains, dict_get. simpl.
  rewrite Herr. rewrite bool_decide_eq_false_2 by (by intros [? ?]).
  rewrite Hletter. reflexivity.
Qed.

(** The loop body neither reads nor, but for its own line, writes the
    console: from two states that differ on the console only it does the
    same. *)
Lemma handle_result_console env p st1 st2 :
  off_console st1 = off_console st2 →
  off_console (handle_result env p st1).1 = off_console (handle_result env p st2).1
  ∧ (handle_result env p st1).2 = (handle_result env p st2).2.
Proof.
  destruct st1 as [f1 s1 o1 n1 t1], st2 as [f2 s2 o2 n2 t2].
  intros [= -> -> -> ->]. destruct p as [job r].
  unfold handle_result, bind, lift. simpl.
  destruct (contains "data_error" r) as [[|]|e]; simpl; [| |done].
  - by destruct (getitem r "data_error").
  - destruct (dict_get r "cover_letter" (JStr "")) as [letter|e]; simpl; [|done].
    unfold _save_letter. by destruct letter.
Qed.

Lemma forM_cons {A} (f : A → M unit) x l st :
  forM f (x :: l) st
  = match f x st with
    | (st', Ok _) => forM f l st'
    | (st', Raise e) => (st', Raise e)
    end.
Proof. reflexivity. Qed.

(** Dropping the failed results from the loop changes nothing but the
    console. *)
Lemma loop_skips_failed env pairs st1 st2 :
  off_console st1 = off_console st2 →
  off_console (forM (handle_result env) pairs st1).1
  = off_console (forM (handle_result env)
                   (filter (λ p, failed p.2 = false) pairs) st2).1
  ∧ (forM (handle_result env) pairs st1).2
    = (forM (handle_result env) (filter (λ p, failed p.2 = false) pairs) st2).2.
Proof.
  revert st1 st2. induction pairs as [|[job r] pairs IH]; intros st1 st2 Hst.
  { by split. }
  destruct (failed r) eqn:Hfailed.
  - rewrite filter_cons_False by (simpl; congruence).
    destruct r as [| | | | | |kv]; try discriminate Hfailed.
    apply bool_decide_eq_true_1 in Hfailed as [err Herr].
    rewrite forM_cons, (handle_result_failed _ _ _ _ _ Herr).
    by apply IH.
  - rewrite filter_cons_True by done.
    destruct (handle_result_console env (job, r) st1 st2 Hst) as [Hoff Hres].
    rewrite !forM_cons.
    destruct (handle_result env (job, r) st1) as [st1' [[]|e]],
             (handle_result env (job, r) st2) as [st2' [[]|e']];
      simpl in *; try done.
    by apply IH.
Qed.

Lemma mega_generate_run env job st :
  _mega_generate env job st
  = match generation_call env job st with
    | (st', Ok v) => (st', Ok v)
    | (st', Raise e) => (st', Ok (parse_error e))
    end.
Proof.
  unfold _mega_generate, bind, catch.
  by destruct (generation_call env job st) as [st' [v|e]].
Qed.

Lemma str_app_assoc (a b c : string) : (a +:+ b) +:+ c = a +:+ b +:+ c.
Proof.
  induction a as [|x a IH]; [done|].
  change (String x ((a +:+ b) +:+ c) = String x (a +:+ b +:+ c)). by rewrite IH.
Qed.

(** A follow-up line in front of a text, spelled out. *)
Lemma followup_line_app env n job rest :
  followup_line env n job +:+ rest
  = eta_iso env n +:+ "||" +:+ url job +:+ String "010"%char "" +:+ rest.
Proof. unfold followup_line, LF. by rewrite !str_app_assoc. Qed.

(** C6, on a reply that parses and is no record with a text letter: the
    generation call returns it as it is, no "data_error" record, and the
    loop body raises on it, [AttributeError] for a list and [TypeError]
    for a letter that is [null]. With three postings selected and such a
    reply for the second, the run raises out of [main]: the third
    posting, whose generation succeeded, gets no letter, no follow-up
    and no cache entry, the cache file is not written, so that the url
    of the first posting is lost to the next run, and the lock is left
    behind. *)
Theorem wrong_shape_reply_aborts_run :
  (generation_call (odd_reply_world list_reply) job_b fresh).2 = Ok (JArr [])
  ∧ (generation_call (odd_reply_world null_letter_reply) job_b fresh).2
    = Ok (JObj [("cover_letter", JNull)])
  ∧ (generation_call (odd_reply_world list_reply) job_c fresh).2
    = Ok (JObj [("cover_letter", JStr "Dear https://newyork.craigslist.org/c.html")])
  ∧ (main (odd_reply_world list_reply) fresh).2
    = Raise (Exn AttributeError "object has no attribute 'get'")
  ∧ (main (odd_reply_world null_letter_reply) fresh).2
    = Raise (Exn TypeError "data must be str")
  ∧ stopped_at_second (odd_reply_world list_reply)
      (main (odd_reply_world list_reply) fresh).1
  ∧ stopped_at_second (odd_reply_world null_letter_reply)
      (main (odd_reply_world null_letter_reply) fresh).1.
Proof. unfold stopped_at_second. split_and!; vm_compute; reflexivity. Qed.




(** The same through the whole run: the chat endpoint answers with the
    text of the empty record, which parses, and the run ends with an
    empty letter, a follow-up line and the url in the cache. *)
Lemma bare_reply_run :
  let st := (main bare_reply_world fresh).1 in
  main bare_reply_world fresh = (st, Ok tt)
  ∧ fs st !! "main_data/2026-11-04_Python_Developer_Craigslist-newyork.md"
    = Some ""
  ∧ fs st !! "main_data/followups.txt"
    = Some ("2026-11-06T09:00:00||https://newyork.craigslist.org/a.html"
            +:+ String "010"%char "")
  ∧ SEEN_URLS st = {[url job_a]}.
Proof. cbv zeta. split_and!; vm_compute; reflexivity. Qed.

(** ** Letter files *)



(** * Further properties *)

(** ** The cache file *)

Lemma texts_of_strs (l : list string) : texts_of (JStr <$> l) = l.
Proof.
  induction l as [|s l IH]; [done|].
  change (s :: texts_of (JStr <$> l) = s :: l). by rewrite IH.
Qed.

Lemma no_unhashable_strs (l : list string) : existsb unhashable (JStr <$> l) = false.
Proof. by induction l as [|s l IH]. Qed.

Lemma set_of_json_strs (l : list string) :
  set_of_json (JArr (JStr <$> l)) = Some (Ok (list_to_set l)).
Proof.
  unfold set_of_json. rewrite no_unhashable_strs, texts_of_strs.
  by rewrite length_fmap, bool_decide_eq_true_2.
Qed.

Lemma list_to_set_sorted_strs (s : gset string) : list_to_set (sorted_strs s) = s.
Proof.
  unfold sorted_strs. apply set_eq. intros u.
  rewrite elem_of_list_to_set, merge_sort_Permutation. apply elem_of_elements.
Qed.

(** X1: what [_save_seen] writes, [_load_seen] reads back. With a [json]
    whose [loads] undoes [dumps] on the written list, loading from the
    file system that [_save_seen(seen)] leaves gives exactly [seen]. *)
Theorem load_after_save env seen st :
  json_loads env (seen_text env seen) = Ok (JArr (JStr <$> sorted_strs seen)) →
  _load_seen env (fs (_save_seen env seen st).1) = Some (Ok seen).
Proof.
  intros Hjson. rewrite save_seen_run. unfold _load_seen. simpl.
  rewrite lookup_insert_eq, Hjson, set_of_json_strs.
  by rewrite list_to_set_sorted_strs.
Qed.

Lemma load_after_save_cache :
  _load_seen cache_world (fs (_save_seen cache_world {[url job_a]} fresh).1)
  = Some (Ok {[url job_a]}).
Proof.
  apply (load_after_save cache_world {[url job_a]} fresh).
  vm_compute. reflexivity.
Defined.

(** X2: the cache file lists every url of the cache once, in ascending
    order, whatever the cache holds. *)
Theorem sorted_strs_listing (s : gset string) :
  Sorted String.le (sorted_strs s)
  ∧ NoDup (sorted_strs s)
  ∧ ∀ u, u ∈ sorted_strs s ↔ u ∈ s.
Proof.
  unfold sorted_strs. split; [|split].
  - apply Sorted_merge_sort. apply _.
  - rewrite merge_sort_Permutation. apply NoDup_elements.
  - intros u. rewrite merge_sort_Permutation. apply elem_of_elements.
Qed.

(** ** The mood palette *)

(** X3: every index, a NaN included, gets one of the three palette
    entries, and its temperature and top_p lie within the ranges that
    the prompt announces (0.40 to 0.80 and 0.90 to 0.98). An index that
    is below neither threshold, as a NaN is, gets the last entry. *)
Theorem palette_ranges (idx : float) :
  (mood_tag (_palette idx) = "calm" ∨ mood_tag (_palette idx) = "energetic"
   ∨ mood_tag (_palette idx) = "visionary")
  ∧ PrimFloat.leb 0.40 (mood_temp (_palette idx)) = true
  ∧ PrimFloat.leb (mood_temp (_palette idx)) 0.80 = true
  ∧ PrimFloat.leb 0.90 (mood_topp (_palette idx)) = true
  ∧ PrimFloat.leb (mood_topp (_palette idx)) 0.98 = true
  ∧ (PrimFloat.ltb idx 0.66 = false → PrimFloat.ltb idx 0.33 = false →
     mood_tag (_palette idx) = "visionary")
  ∧ mood_tag (_palette PrimFloat.nan) = "visionary".
Proof.
  unfold _palette.
  destruct (PrimFloat.ltb idx 0.33), (PrimFloat.ltb idx 0.66); simpl;
    split_and!; auto; try discriminate.
Qed.

(** ** Letter names *)

Lemma all_chars_str_take test n s :
  all_chars test s = true → all_chars test (str_take n s) = true.
Proof.
  revert n. induction s as [|c s IH]; intros [|n] H; simpl in *; try done.
  apply andb_true_iff in H as [-> H]. by apply IH.
Qed.

Lemma length_str_take n s : String.length (str_take n s) ≤ n.
Proof.
  revert n. induction s as [|c s IH]; intros [|n]; simpl; try lia.
  specialize (IH n). lia.
Qed.

Lemma all_chars_sub_nonword word in_run s :
  all_chars (λ c, word c || Ascii.eqb c "_") (sub_nonword word in_run s) = true.
Proof.
  revert in_run. induction s as [|c s IH]; intros in_run; simpl; [done|].
  destruct (word c) eqn:Hc; simpl.
  - by rewrite Hc, IH.
  - destruct in_run; simpl; [apply IH|]. by rewrite orb_true_r, IH.
Qed.

Lemma sub_nonword_words word in_run s :
  all_chars word s = true → sub_nonword word in_run s = s.
Proof.
  revert in_run. induction s as [|c s IH]; intros in_run H; simpl in *; [done|].
  apply andb_true_iff in H as [-> H]. by rewrite IH.
Qed.

(** X4: the sanitized title that goes into a letter's name has at most
    40 characters, each of them matched by [\w] or an underscore (so no
    path separator when [\w] matches none); and when [\w] matches the
    underscore, as it does in [re], sanitizing it again changes
    nothing. *)
Theorem safe_title_shape env job :
  String.length (safe_title env job) ≤ 40
  ∧ all_chars (λ c, is_word env c || Ascii.eqb c "_") (safe_title env job) = true
  ∧ (is_word env "_" = true →
     str_take 40 (sub_nonword (is_word env) false (safe_title env job))
     = safe_title env job).
Proof.
  unfold safe_title. split; [apply length_str_take|]. split.
  - apply all_chars_str_take, all_chars_sub_nonword.
  - intros Hunderscore.
    set (t := str_take 40 (sub_nonword (is_word env) false (title job))).
    assert (all_chars (is_word env) t = true) as Hwords.
    { pose proof (all_chars_str_take _ 40 _
                    (all_chars_sub_nonword (is_word env) false (title job))) as H.
      fold t in H. clearbody t. induction t as [|c t IH]; simpl in *; [done|].
      apply andb_true_iff in H as [Hc H]. rewrite IH by done.
      apply orb_true_iff in Hc as [->|Hc]; [done|].
      apply Ascii.eqb_eq in Hc as ->. by rewrite Hunderscore. }
    rewrite (sub_nonword_words _ _ _ Hwords).
    assert (String.length t ≤ 40) as Hlen by apply length_str_take.
    clearbody t. clear Hwords. revert Hlen. generalize 40.
    induction t as [|c t IH]; intros [|n] Hlen; simpl in *; try done; try lia.
    rewrite IH by lia. done.
Qed.

(** ** The loop body, case by case *)

(** When the loop body returns, it has either reported a failure record
    or accepted a record with a text letter. *)
Lemma handle_result_ok_inv env job r st :
  (handle_result env (job, r) st).2 = Ok tt →
  (failed r = true
   ∧ ∃ err, handle_result env (job, r) st
            = (push_stdout (MsgFailed (title job) err) st, Ok tt))
  ∨ (failed r = false
     ∧ ∃ text, handle_result env (job, r) st = (accepted env job text st, Ok tt)).
Proof.
  destruct r as [| | | | s|l|kv]; try discriminate.
  - unfold handle_result, bind, lift. simpl.
    by destruct (is_substring "data_error" s).
  - unfold handle_result, bind, lift. simpl.
    by destruct (existsb _ l).
  - destruct (assoc "data_error" kv) as [err|] eqn:Herr.
    + intros _. left. split; [simpl; rewrite Herr; by apply bool_decide_eq_true_2|].
      exists err. by apply handle_result_failed.
    + destruct (default (JStr "") (assoc "cover_letter" kv)) as [| | | |text| |] eqn:Hl.
      5:{ intros _. right. split.
          - simpl. rewrite Herr. by apply bool_decide_eq_false_2; intros [? ?].
          - exists text. by apply handle_result_accepted. }
      all: unfold handle_result, bind, lift, contains, dict_get; simpl;
        rewrite Herr, bool_decide_eq_false_2 by (by intros [? ?]);
        rewrite Hl; discriminate.
Qed.

Lemma handle_result_raise_inv env p st e :
  (handle_result env p st).2 = Raise e →
  (handle_result env p st).1 = st.
Proof.
  destruct p as [job r]. unfold handle_result, bind, lift. simpl.
  destruct (contains "data_error" r) as [[|]|e1]; simpl; [| |done].
  - by destruct (getitem r "data_error").
  - destruct (dict_get r "cover_letter" (JStr "")) as [letter|e2]; simpl; [|done].
    unfold _save_letter. by destruct letter.
Qed.

(** X5: a result of another shape is refused before anything is
    written. When the result is no record, or a record without
    "data_error" whose letter is there and no text, the loop body raises
    a [TypeError] or an [AttributeError] and leaves the files, the
    cache, the console, the network log and the clock as they were. *)
Theorem wrong_shape_raises_clean env job r st :
  wrong_shape r = true →
  ∃ e, handle_result env (job, r) st = (st, Raise e)
       ∧ (exn_cls e = TypeError ∨ exn_cls e = AttributeError).
Proof.
  intros Hshape. unfold handle_result, bind, lift.
  destruct r as [|b|n|f|s|l|kv]; cbn [fst snd contains].
  - eexists. split; [reflexivity|by left].
  - eexists. split; [reflexivity|by left].
  - eexists. split; [reflexivity|by left].
  - eexists. split; [reflexivity|by left].
  - destruct (is_substring "data_error" s);
      (eexists; split; [reflexivity|]); [by left|by right].
  - destruct (existsb _ l);
      (eexists; split; [reflexivity|]); [by left|by right].
  - simpl in Hshape.
    destruct (assoc "data_error" kv) as [err|] eqn:Herr; [discriminate Hshape|].
    rewrite bool_decide_eq_false_2 by (by intros [? ?]).
    unfold dict_get, _save_letter.
    destruct (assoc "cover_letter" kv) as [[| | | |text| |]|];
      try discriminate Hshape;
      (eexists; split; [reflexivity|by left]).
Qed.

Lemma wrong_shape_raises_clean_list :
  wrong_shape (JArr [JStr "data_error"]) = true
  ∧ ∃ e, handle_result tie_world (job_a, JArr [JStr "data_error"]) old_journal
         = (old_journal, Raise e)
         ∧ (exn_cls e = TypeError ∨ exn_cls e = AttributeError).
Proof.
  split; [reflexivity|].
  apply (wrong_shape_raises_clean tie_world job_a (JArr [JStr "data_error"])
           old_journal).
  reflexivity.
Defined.

Lemma universal_newlines_no_cr s : no_cr s = true → universal_newlines s = s.
Proof.
  unfold no_cr. induction s as [|c s IH]; [done|].
  intros H. apply andb_true_iff in H as [Hc H].
  apply negb_true_iff in Hc.
  change (universal_newlines (String c s))
    with (if Ascii.eqb c "013"%char
          then String "010"%char
                 match s with
                 | String c' s'' =>
                     if Ascii.eqb c' "010"%char then universal_newlines s''
                     else universal_newlines s
                 | EmptyString => ""
                 end
          else String c (universal_newlines s)).
  by rewrite Hc, IH.
Qed.

Lemma no_cr_app a b : no_cr a = true → no_cr b = true → no_cr (a +:+ b) = true.
Proof.
  unfold no_cr. intros Ha Hb. induction a as [|c a IH]; [done|].
  simpl in *. apply andb_true_iff in Ha as [-> Ha]. by apply IH.
Qed.

Lemma journal_after_no_cr env n jobs old :
  (∀ k, no_cr (eta_iso env k) = true) →
  Forall (λ job, no_cr (url job) = true) jobs →
  no_cr old = true →
  journal_after env n jobs old = journal_lines env n jobs +:+ old.
Proof.
  intros Heta Hjobs. revert n old.
  induction Hjobs as [|job jobs Hjob _ IH]; intros n old Hold; [done|].
  cbn [journal_after journal_lines].
  rewrite (universal_newlines_no_cr old Hold), IH.
  - by rewrite !str_app_assoc.
  - apply no_cr_app; [done|]. apply (no_cr_app "||"); [done|].
    apply no_cr_app; [done|]. by apply (no_cr_app (String "010"%char "")).
Qed.

(** X6: what the loop over the results adds up to when it ends
    normally. Each accepted posting, and no other, has put one line in
    front of the journal as it read it, the time and the url with two
    bars between them, so that the line of the last accepted posting
    comes first; where neither the times, the urls nor the old journal
    hold a carriage return, the journal is these lines followed by what
    it held before. The cache has gained exactly the urls of the
    accepted postings, and the clock was read once per accepted
    posting. *)
Theorem loop_effect env pairs st :
  (forM (handle_result env) pairs st).2 = Ok tt →
  let st' := (forM (handle_result env) pairs st).1 in
  let old := default "" (fs st !! follow_path env) in
  default "" (fs st' !! follow_path env)
  = journal_after env (ticks st) (accepted_jobs pairs) old
  ∧ ((∀ k, no_cr (eta_iso env k) = true) →
     Forall (λ job, no_cr (url job) = true) (accepted_jobs pairs) →
     no_cr old = true →
     default "" (fs st' !! follow_path env)
     = journal_lines env (ticks st) (accepted_jobs pairs) +:+ old)
  ∧ SEEN_URLS st' = list_to_set (url <$> accepted_jobs pairs) ∪ SEEN_URLS st
  ∧ ticks st' = ticks st + length (accepted_jobs pairs)
  ∧ net st' = net st.
Proof.
  intros Hok. cbv zeta.
  assert (default "" (fs (forM (handle_result env) pairs st).1 !! follow_path env)
          = journal_after env (ticks st) (accepted_jobs pairs)
              (default "" (fs st !! follow_path env))
          ∧ SEEN_URLS (forM (handle_result env) pairs st).1
            = list_to_set (url <$> accepted_jobs pairs) ∪ SEEN_URLS st
          ∧ ticks (forM (handle_result env) pairs st).1
            = ticks st + length (accepted_jobs pairs)
          ∧ net (forM (handle_result env) pairs st).1 = net st)
    as (Hjournal & Hseen & Hticks & Hnet).
  { revert st Hok. induction pairs as [|[job r] pairs IH]; intros st Hok.
    { simpl. split_and!; [done|by rewrite (left_id_L ∅ (∪))|lia|done]. }
    rewrite forM_cons in *.
    destruct (handle_result env (job, r) st) as [st1 [[]|e]] eqn:Hstep;
      [|discriminate Hok].
    destruct (handle_result_ok_inv env job r st)
      as [[Hf [err Hrun]]|[Hf [text Hrun]]];
      [by rewrite Hstep|..]; rewrite Hstep in Hrun; injection Hrun as ->;
      destruct (IH _ Hok) as (Hjournal & Hseen & Hticks & Hnet);
      unfold accepted_jobs in *.
    - rewrite filter_cons_False by (simpl; congruence). done.
    - rewrite filter_cons_True by done. simpl in *.
      pose proof (letter_path_ne_follow_path env job) as Hne.
      rewrite lookup_insert_eq, lookup_insert_ne in Hjournal by done.
      simpl in Hjournal. rewrite followup_line_app in Hjournal.
      split_and!.
      + exact Hjournal.
      + rewrite Hseen, (assoc_L (∪)). f_equal. apply (comm_L (∪)).
      + by rewrite Hticks, Nat.add_succ_r.
      + done. }
  split_and!; try done.
  intros Heta Hurls Hold. rewrite Hjournal. by apply journal_after_no_cr.
Qed.

Lemma loop_effect_two :
  default ""
    (fs (forM (handle_result tie_world)
           [(job_a, JObj [("cover_letter", JStr "Dear a")]);
            (job_b, JObj [("data_error", JStr "no data")]);
            (job_c, JObj [("cover_letter", JStr "Dear c")])] old_journal).1
     !! "main_data/followups.txt")
  = "2026-11-06T09:00:01||https://newyork.craigslist.org/c.html"
    +:+ String "010"%char
          ("2026-11-06T09:00:00||https://newyork.craigslist.org/a.html"
           +:+ String "010"%char
                 ("2026-11-01T08:00:00||https://remoteok.com/old"
                  +:+ String "010"%char ""))
  ∧ SEEN_URLS (forM (handle_result tie_world)
                 [(job_a, JObj [("cover_letter", JStr "Dear a")]);
                  (job_b, JObj [("data_error", JStr "no data")]);
                  (job_c, JObj [("cover_letter", JStr "Dear c")])] old_journal).1
    = list_to_set [ "https://newyork.craigslist.org/a.html";
                    "https://newyork.craigslist.org/c.html" ] ∪ ∅.
Proof.
  destruct (loop_effect tie_world
              [(job_a, JObj [("cover_letter", JStr "Dear a")]);
               (job_b, JObj [("data_error", JStr "no data")]);
               (job_c, JObj [("cover_letter", JStr "Dear c")])] old_journal)
    as (Hjournal & _ & Hseen & _).
  - vm_compute. reflexivity.
  - split; [exact Hjournal | exact Hseen].
Defined.

(** X20: a generation that raises is isolated. A generation call never
    raises and touches nothing but the network: when the request fails
    after its retries, or the answer lacks the message, or its text does
    not parse, the call returns a "data_error" record. For such a record
    the loop writes no letter, schedules no follow-up and adds no url,
    it only prints; and the loop over all results leaves the files, the
    cache, the clock and the network exactly as the loop over the
    results without these records does. With three postings selected
    and the second generation answered by 500 every time, the run ends
    normally with the letters, the journal lines and the cache entries
    of the first and the third. *)
Theorem raised_generation_isolated :
  (∀ env job st,
      ∃ v, (_mega_generate env job st).2 = Ok v
           ∧ offline (_mega_generate env job st).1 = offline st)
  ∧ (∀ env job st,
      match generation_call env job st with
      | (st', Ok v) => _mega_generate env job st = (st', Ok v)
      | (st', Raise e) =>
          _mega_generate env job st
          = (st', Ok (JObj [("data_error", JStr ("parse error: " +:+ exn_msg e))]))
      end)
  ∧ (∀ env job kv err st,
      assoc "data_error" kv = Some err →
      handle_result env (job, JObj kv) st
      = (push_stdout (MsgFailed (title job) err) st, Ok tt))
  ∧ (∀ env pairs st,
      off_console (forM (handle_result env) pairs st).1
      = off_console (forM (handle_result env)
                       (filter (λ p, failed p.2 = false) pairs) st).1
      ∧ (forM (handle_result env) pairs st).2
        = (forM (handle_result env)
             (filter (λ p, failed p.2 = false) pairs) st).2)
  ∧ (let st := (main one_failure_world fresh).1 in
     main one_failure_world fresh = (st, Ok tt)
     ∧ dom (fs st)
       = {[ "main_data/seen.json"; "main_data/followups.txt";
            "main_data/2026-11-04_Python_Developer_Craigslist-newyork.md";
            "main_data/2026-11-04_Backend_Developer_Craigslist-newyork.md" ]}
     ∧ SEEN_URLS st
       = {[ "https://newyork.craigslist.org/a.html";
            "https://newyork.craigslist.org/c.html" ]}
     ∧ fs st !! "main_data/followups.txt"
       = Some ("2026-11-06T09:00:01||https://newyork.craigslist.org/c.html"
               +:+ String "010"%char
                     ("2026-11-06T09:00:00||https://newyork.craigslist.org/a.html"
                      +:+ String "010"%char ""))).
Proof.
  split; [|split; [|split; [|split]]].
  - intros env job st. split_and?.
    pose proof (mega_generate_offline env job st) as Hoff.
    rewrite mega_generate_run in *.
    destruct (generation_call env job st) as [st' [v|e]]; eauto.
  - intros env job st. rewrite mega_generate_run.
    by destruct (generation_call env job st) as [st' [v|e]].
  - intros env job kv err st Herr. by apply handle_result_failed.
  - intros env pairs st. by apply loop_skips_failed.
  - cbv zeta. split_and!; vm_compute; reflexivity.
Qed.

(** ** More on retrying *)

Lemma retry_from_first_success {A} r ev (outcome : nat → res A) k n v st :
  (∀ i, i < k → ∃ e, outcome (n + i) = Raise e ∧ retry_on r e = true) →
  outcome (n + k) = Ok v →
  ∀ remaining, k ≤ remaining →
  retry_from remaining r (request ev outcome) n st
  = (mkState (fs st) (SEEN_URLS st) (stdout st)
             (retry_events r ev n k ++ net st) (ticks st), Ok v).
Proof.
  revert n st. induction k as [|k IH]; intros n st Hfail Hok remaining Hle.
  - rewrite Nat.add_0_r in Hok. destruct remaining; simpl; by rewrite Hok.
  - destruct remaining as [|remaining]; [lia|].
    destruct (Hfail 0) as (e & He & Hretry); [lia|].
    rewrite Nat.add_0_r in He. simpl. rewrite He, Hretry.
    rewrite (IH (S n)); [|intros i Hi| |lia].
    + simpl. by rewrite <- app_assoc.
    + destruct (Hfail (S i)) as (e' & He' & Hretry'); [lia|].
      exists e'. by rewrite Nat.add_succ_comm.
    + by rewrite Nat.add_succ_comm.
Qed.

(** X7: a page fetch returns the first answer that arrives within its
    three attempts. When the attempts before the k-th fail with an
    [httpx.HTTPError] and the k-th (the first, second or third) returns
    a page, [_get_html] returns that page after exactly k requests, the
    waits between them being those of the policy. *)
Theorem get_html_first_success env target k page st :
  k < 3 →
  (∀ i, i < k → ∃ e, http_get env target (1 + i) = Raise e ∧ is_HTTPError e = true) →
  http_get env target (1 + k) = Ok page →
  (_get_html env target st).2 = Ok page
  ∧ net (_get_html env target st).1
    = retry_events GET_HTML_RETRY (Get target) 1 k ++ net st.
Proof.
  intros Hk Hfail Hok. unfold _get_html, retrying, get_once.
  rewrite (retry_from_first_success GET_HTML_RETRY (Get target)
             (http_get env target) k 1 page st Hfail Hok); [done|].
  simpl. lia.
Qed.

Lemma get_html_first_success_second :
  (_get_html flaky_world "https://remoteok.com/remote-python-jobs" fresh).2
  = Ok "<html>"
  ∧ net (_get_html flaky_world "https://remoteok.com/remote-python-jobs" fresh).1
    = [Get "https://remoteok.com/remote-python-jobs"; Sleep 2;
       Get "https://remoteok.com/remote-python-jobs"].
Proof.
  destruct (get_html_first_success flaky_world
              "https://remoteok.com/remote-python-jobs" 1 "<html>" fresh)
    as [Hpage Hnet].
  - lia.
  - intros i Hi. exists server_error. by replace i with 0 by lia.
  - reflexivity.
  - split; [exact Hpage | exact Hnet].
Defined.

(** X8: an OpenAI call is retried on an HTTP status error only. When
    its first attempt raises anything else, a refused connection or a
    timeout for instance, [_openai_post] raises that exception after the
    one request, without a wait. *)
Theorem openai_post_not_retried env path payload e st :
  http_post env path payload 1 = Raise e →
  is_HTTPStatusError e = false →
  _openai_post env path payload st
  = (push_net (Post ("/" +:+ path) payload) st, Raise e).
Proof.
  intros Hfirst Hclass. unfold _openai_post, retrying, post_once. simpl.
  by rewrite Hfirst, Hclass.
Qed.

Lemma openai_post_not_retried_refused :
  _openai_post flaky_world "embeddings" JNull fresh
  = (push_net (Post "/embeddings" JNull) fresh, Raise connection_error).
Proof.
  apply (openai_post_not_retried flaky_world "embeddings" JNull connection_error fresh);
    reflexivity.
Defined.

Lemma slept_app a b : slept (a ++ b) = (slept a + slept b)%Z.
Proof.
  induction a as [|[t|p j|z] a IH]; simpl; try done. rewrite IH. lia.
Qed.

(** X9: the waits of one call add up to little. Whatever the network
    answers, [_get_html] sleeps at most 4 seconds in all and
    [_openai_post] at most 16. *)
Theorem total_backoff_bounded env st :
  (∀ target, (slept (net (_get_html env target st).1) ≤ slept (net st) + 4)%Z)
  ∧ (∀ path payload,
       (slept (net (_openai_post env path payload st).1) ≤ slept (net st) + 16)%Z).
Proof.
  split.
  - intros target. unfold _get_html, retrying, get_once.
    destruct (retry_from_events GET_HTML_RETRY (Get target) (http_get env target)
                2 1 st) as (retries & Hle & Hnet).
    simpl max_attempt_number. simpl Nat.sub. rewrite Hnet, slept_app.
    assert (retries = 0 ∨ retries = 1 ∨ retries = 2) as [->|[->| ->]] by lia;
      vm_compute slept at 1; lia.
  - intros path payload. unfold _openai_post, retrying, post_once.
    destruct (retry_from_events OPENAI_RETRY (Post ("/" +:+ path) payload)
                (http_post env path payload) 3 1 st) as (retries & Hle & Hnet).
    simpl max_attempt_number. simpl Nat.sub. rewrite Hnet, slept_app.
    assert (retries = 0 ∨ retries = 1 ∨ retries = 2 ∨ retries = 3)
      as [->|[->|[->| ->]]] by lia;
      simpl; change (wait_exponential OPENAI_RETRY 1) with 4%Z;
      change (wait_exponential OPENAI_RETRY 2) with 4%Z;
      change (wait_exponential OPENAI_RETRY 3) with 8%Z; lia.
Qed.

(** ** Ranking *)

Section SortedPermutation.
Context {T : Type} (lt : T → T → res bool).

Lemma insert_sorted_perm x run out :
  insert_sorted lt x run = Ok out → out ≡ₚ x :: run.
Proof.
  revert out. induction run as [|y run IH]; intros out; simpl.
  - by intros [= <-].
  - destruct (lt x y) as [[|]|e]; simpl; [by intros [= <-]| |done].
    destruct (insert_sorted lt x run) as [r|e]; simpl; [|done].
    intros [= <-]. rewrite (IH r) by done. apply Permutation_swap.
Qed.

Lemma sort_into_perm run todo out :
  sort_into lt run todo = Ok out → out ≡ₚ run ++ todo.
Proof.
  revert run out. induction todo as [|x todo IH]; intros run out; simpl.
  - intros [= <-]. by rewrite app_nil_r.
  - destruct (insert_sorted lt x run) as [run'|e] eqn:Hins; simpl; [|done].
    intros Hsort. rewrite (IH _ _ Hsort), (insert_sorted_perm _ _ _ Hins).
    simpl. apply Permutation_middle.
Qed.

Lemma py_sorted_perm reverse l out :
  py_sorted lt reverse l = Ok out → out ≡ₚ l.
Proof.
  unfold py_sorted. destruct reverse.
  - destruct (sort_into lt [] (rev l)) as [r|e] eqn:Hsort; simpl; [|done].
    intros [= <-]. rewrite <- (Permutation_rev r).
    rewrite (sort_into_perm _ _ _ Hsort). simpl.
    by rewrite <- (Permutation_rev l).
  - intros Hsort. by rewrite (sort_into_perm _ _ _ Hsort).
Qed.
End SortedPermutation.

Lemma snd_zip_take {A B} (l : list A) (k : list B) :
  (zip l k).*2 = take (length l) k.
Proof.
  revert k. induction l as [|x l IH]; intros [|y k]; simpl; try done.
  f_equal. apply IH.
Qed.

Lemma scores_of_jobs env base embs jobs :
  (scores_of env base embs jobs).*2 = take (length embs) jobs.
Proof.
  unfold scores_of. rewrite <- list_fmap_compose.
  rewrite <- (snd_zip_take embs jobs). by apply list_fmap_ext.
Qed.

(** What a normal return of [_rank_jobs] on a non-empty list went
    through. *)
Lemma rank_jobs_inv env job jobs st st' ranked :
  _rank_jobs env (job :: jobs) st = (st', Ok ranked) →
  ∃ base embs scored,
    _embed env (rank_texts env (job :: jobs)) st = (st', Ok (base :: embs))
    ∧ py_sorted tuple_lt true (scores_of env base embs (job :: jobs)) = Ok scored
    ∧ ranked = scored.*2.
Proof.
  unfold _rank_jobs. fold (rank_texts env (job :: jobs)). unfold bind at 1.
  destruct (_embed env (rank_texts env (job :: jobs)) st) as [st1 [[|base embs]|e]];
    unfold bind, lift, ret; [intros H; discriminate H| |intros H; discriminate H].
  change (drop 1 (base :: embs)) with embs.
  fold (scores_of env base embs (job :: jobs)).
  destruct (py_sorted tuple_lt true (scores_of env base embs (job :: jobs)))
    as [scored|e] eqn:Hsort; [|done].
  intros [= -> <-]. by exists base, embs, scored.
Qed.

(** X10: ranking returns its input, reordered and possibly cut short,
    never anything else. When [_rank_jobs] returns, the result is a
    permutation of the first postings of the input, as many as the
    result is long: a posting for which the scorer sent no vector is
    dropped without notice, and no posting is returned twice or made
    up. *)
Theorem rank_jobs_reorders env jobs st st' ranked :
  _rank_jobs env jobs st = (st', Ok ranked) →
  ranked ≡ₚ take (length ranked) jobs ∧ length ranked ≤ length jobs.
Proof.
  destruct jobs as [|job jobs]; [by intros [= _ <-]|].
  intros (base & embs & scored & _ & Hsort & ->)%rank_jobs_inv.
  apply py_sorted_perm in Hsort.
  assert (scored.*2 ≡ₚ take (length embs) (job :: jobs)) as Hperm.
  { by rewrite Hsort, scores_of_jobs. }
  assert (length scored.*2 = length (take (length embs) (job :: jobs))) as Hlen.
  { by rewrite Hperm. }
  rewrite length_take in Hlen. split; [|lia].
  rewrite Hperm at 1. rewrite Hlen.
  destruct (decide (length embs ≤ length (job :: jobs))).
  - by rewrite Nat.min_l.
  - rewrite Nat.min_r by lia. by rewrite !take_ge by lia.
Qed.

Lemma rank_jobs_reorders_short :
  (_rank_jobs short_reply_world [job_a; job_b; job_c] fresh).2 = Ok [job_b; job_a]
  ∧ [job_b; job_a] ≡ₚ take 2 [job_a; job_b; job_c].
Proof.
  split; [vm_compute; reflexivity|].
  apply (rank_jobs_reorders short_reply_world [job_a; job_b; job_c] fresh
           (_rank_jobs short_reply_world [job_a; job_b; job_c] fresh).1
           [job_b; job_a]).
  vm_compute. reflexivity.
Defined.

(** *** The order of binary64 *)

Lemma SFcompare_antisym a b :
  SpecFloat.SFcompare b a = option_map CompOpp (SpecFloat.SFcompare a b).
Proof.
  destruct a as [sa|sa| |sa ma ea], b as [sb|sb| |sb mb eb]; simpl; try reflexivity;
    try (destruct sa; reflexivity); try (destruct sb; reflexivity);
    try (destruct sa, sb; reflexivity).
  destruct sa, sb; try reflexivity; f_equal;
    rewrite (Z.compare_antisym ea eb); destruct (ea ?= eb)%Z; simpl; try reflexivity;
    rewrite !Pos.compare_cont_spec; simpl; rewrite (Pos.compare_antisym ma mb);
    destruct (ma ?= mb)%positive; reflexivity.
Qed.

Lemma SFleb_trans a b c :
  SpecFloat.SFleb a b = true → SpecFloat.SFleb b c = true →
  SpecFloat.SFleb a c = true.
Proof.
  unfold SpecFloat.SFleb.
  destruct a as [sa|sa| |sa ma ea], b as [sb|sb| |sb mb eb], c as [sc|sc| |sc mc ec];
    simpl; try discriminate; try reflexivity;
    repeat match goal with s : bool |- _ => destruct s end; simpl;
    try discriminate; try reflexivity.
  all: rewrite ?Pos.compare_cont_spec; simpl.
  all: destruct (Z.compare_spec ea eb), (Z.compare_spec eb ec), (Z.compare_spec ea ec);
    simpl; try discriminate; try reflexivity; try lia.
  all: subst; destruct (Pos.compare_spec ma mb), (Pos.compare_spec mb mc),
         (Pos.compare_spec ma mc);
    simpl; try discriminate; try reflexivity; try lia.
Qed.

Lemma SFcompare_some a b :
  SpecFloat.SFcompare a a = Some Eq → SpecFloat.SFcompare b b = Some Eq →
  is_Some (SpecFloat.SFcompare a b).
Proof. destruct a, b; simpl; try discriminate; eauto. Qed.

Lemma not_nan_compare (x : float) :
  PrimFloat.is_nan x = false →
  SpecFloat.SFcompare (Prim2SF x) (Prim2SF x) = Some Eq.
Proof.
  unfold PrimFloat.is_nan. rewrite FloatAxioms.eqb_spec. unfold SpecFloat.SFeqb.
  by destruct (SpecFloat.SFcompare _ _) as [[| |]|].
Qed.

(** Among numbers, what is not below is at least. *)
Lemma float_not_lt_ge (x y : float) :
  PrimFloat.is_nan x = false → PrimFloat.is_nan y = false →
  PrimFloat.ltb x y = false → PrimFloat.leb y x = true.
Proof.
  intros Hx%not_nan_compare Hy%not_nan_compare.
  rewrite FloatAxioms.ltb_spec, FloatAxioms.leb_spec.
  unfold SpecFloat.SFltb, SpecFloat.SFleb. rewrite (SFcompare_antisym (Prim2SF x)).
  destruct (SFcompare_some _ _ Hx Hy) as [c ->]. by destruct c.
Qed.

Lemma float_eq_ge (x y : float) :
  PrimFloat.eqb x y = true → PrimFloat.leb y x = true.
Proof.
  rewrite FloatAxioms.eqb_spec, FloatAxioms.leb_spec.
  unfold SpecFloat.SFeqb, SpecFloat.SFleb. rewrite (SFcompare_antisym (Prim2SF x)).
  by destruct (SpecFloat.SFcompare _ _) as [[| |]|].
Qed.

Lemma float_lt_le (x y : float) :
  PrimFloat.ltb x y = true → PrimFloat.leb x y = true.
Proof.
  rewrite FloatAxioms.ltb_spec, FloatAxioms.leb_spec.
  unfold SpecFloat.SFltb, SpecFloat.SFleb.
  by destruct (SpecFloat.SFcompare _ _) as [[| |]|].
Qed.

Lemma float_le_trans (x y z : float) :
  PrimFloat.leb x y = true → PrimFloat.leb y z = true → PrimFloat.leb x z = true.
Proof. rewrite !FloatAxioms.leb_spec. apply SFleb_trans. Qed.

(** *** The order of the ranking *)

Lemma StronglySorted_rev {A} (R : relation A) l :
  StronglySorted R l → StronglySorted (flip R) (rev l).
Proof.
  induction 1 as [|x l Hl IH Hx]; simpl; [constructor|].
  apply StronglySorted_app_2; [|done|repeat constructor].
  intros a b Ha Hb. apply list_elem_of_singleton in Hb as ->.
  rewrite Forall_forall in Hx. apply Hx.
  apply list_elem_of_In. apply in_rev. by apply list_elem_of_In.
Qed.

Lemma tuple_lt_true x y :
  tuple_lt x y = Ok true → PrimFloat.leb x.1 y.1 = true.
Proof.
  unfold tuple_lt. destruct (PrimFloat.eqb x.1 y.1).
  - by destruct (decide (x.2 = y.2)).
  - intros [= H]. by apply float_lt_le.
Qed.

Lemma tuple_lt_false x y :
  PrimFloat.is_nan x.1 = false → PrimFloat.is_nan y.1 = false →
  tuple_lt x y = Ok false → PrimFloat.leb y.1 x.1 = true.
Proof.
  intros Hx Hy. unfold tuple_lt. destruct (PrimFloat.eqb x.1 y.1) eqn:Heq.
  - intros _. by apply float_eq_ge.
  - intros [= H]. by apply float_not_lt_ge.
Qed.

Lemma insert_sorted_ascending x run out :
  PrimFloat.is_nan x.1 = false →
  Forall (λ p, PrimFloat.is_nan p.1 = false) run →
  StronglySorted (flip not_below) run →
  insert_sorted tuple_lt x run = Ok out →
  StronglySorted (flip not_below) out.
Proof.
  intros Hx. revert out.
  induction run as [|y run IH]; intros out Hnan Hsorted; simpl.
  { intros [= <-]. repeat constructor. }
  apply Forall_cons in Hnan as [Hy Hnan].
  apply StronglySorted_cons in Hsorted as [Hhead Hsorted].
  destruct (tuple_lt x y) as [[|]|e] eqn:Hlt; simpl; [| |done].
  - intros [= <-]. apply tuple_lt_true in Hlt.
    apply StronglySorted_cons. split; [|by apply StronglySorted_cons].
    constructor; [done|]. eapply Forall_impl; [exact Hhead|].
    intros z Hz. unfold flip, not_below in *. by eapply float_le_trans.
  - destruct (insert_sorted tuple_lt x run) as [r|e] eqn:Hins; simpl; [|done].
    intros [= <-]. apply StronglySorted_cons. split; [|by apply IH].
    rewrite (insert_sorted_perm _ _ _ _ Hins). constructor; [|done].
    by apply tuple_lt_false.
Qed.

Lemma sort_into_ascending run todo out :
  Forall (λ p, PrimFloat.is_nan p.1 = false) (run ++ todo) →
  StronglySorted (flip not_below) run →
  sort_into tuple_lt run todo = Ok out →
  StronglySorted (flip not_below) out.
Proof.
  revert run out. induction todo as [|x todo IH]; intros run out Hnan Hsorted; simpl.
  { by intros [= <-]. }
  destruct (insert_sorted tuple_lt x run) as [run'|e] eqn:Hins; simpl; [|done].
  apply Forall_app in Hnan as [Hrun Htodo]. apply Forall_cons in Htodo as [Hx Htodo].
  apply IH.
  - apply Forall_app. split; [|done].
    rewrite (insert_sorted_perm _ _ _ _ Hins). by constructor.
  - by apply (insert_sorted_ascending x run run').
Qed.

Lemma py_sorted_descending scores scored :
  Forall (λ p, PrimFloat.is_nan p.1 = false) scores →
  py_sorted tuple_lt true scores = Ok scored →
  StronglySorted not_below scored.
Proof.
  intros Hnan. unfold py_sorted.
  destruct (sort_into tuple_lt [] (rev scores)) as [r|e] eqn:Hsort; simpl; [|done].
  intros [= <-].
  apply (StronglySorted_rev (flip not_below)).
  eapply sort_into_ascending; [|constructor|exact Hsort].
  simpl. by rewrite <- Permutation_rev.
Qed.

(** X11: when [_rank_jobs] returns, the postings come in descending
    order of score. The result lists the postings of the scored pairs,
    the pairs being those of the postings with the cosine of the
    profile's vector and their own, in some order; and when no score is
    a NaN, each pair's score is at least the score of every pair after
    it. *)
Theorem rank_jobs_descending env job jobs st st' ranked :
  _rank_jobs env (job :: jobs) st = (st', Ok ranked) →
  ∃ base embs scored,
    _embed env (rank_texts env (job :: jobs)) st = (st', Ok (base :: embs))
    ∧ scored ≡ₚ scores_of env base embs (job :: jobs)
    ∧ ranked = scored.*2
    ∧ (Forall (λ p, PrimFloat.is_nan p.1 = false) scored →
       StronglySorted not_below scored).
Proof.
  intros (base & embs & scored & Hembed & Hsort & ->)%rank_jobs_inv.
  exists base, embs, scored. split_and!; [done|by eapply py_sorted_perm|done|].
  intros Hnan. eapply py_sorted_descending; [|exact Hsort].
  by rewrite <- (py_sorted_perm _ _ _ _ Hsort).
Qed.

Lemma rank_jobs_descending_three :
  ∃ scored,
    scored ≡ₚ [(0.5, job_a); (0.9, job_b); (0.2, job_c)]%float
    ∧ [job_b; job_a; job_c] = scored.*2
    ∧ StronglySorted not_below scored.
Proof.
  destruct (rank_jobs_descending
              (world ["newyork"] (λ _, Ok [job_a; job_b; job_c])
                 (λ _, Ok (embeddings_reply [1; 0.5; 0.9; 0.2]%float))
                 (λ _ _, Raise server_error))
              job_a [job_b; job_c] fresh
              (mkState ∅ ∅ []
                 [Post "/embeddings"
                    (embed_payload ["AES-GCM Django"; "Python Developer Build APIs";
                                    "Django Engineer Ship web apps";
                                    "Backend Developer Scale services"])] 0)
              [job_b; job_a; job_c])
    as (base & embs & scored & Hembed & Hperm & Hranked & Hsorted).
  - vm_compute. reflexivity.
  - vm_compute in Hembed. injection Hembed as <- <-.
    exists scored. split; [exact Hperm|]. split; [exact Hranked|].
    apply Hsorted. rewrite Hperm. repeat constructor.
Defined.

(** X12: ranking asks the scorer once, for everything. On a non-empty
    list [_rank_jobs] puts the profile and every posting into one
    embeddings request; all it does on the network is that one request,
    repeated within the policy of [_openai_post] (at most 4 times, with
    waits between 4 and 60 seconds), and it makes it at least once. *)
Theorem rank_jobs_one_batch env job jobs st :
  ∃ evs,
    net (_rank_jobs env (job :: jobs) st).1 = evs ++ net st
    ∧ evs ≠ []
    ∧ within_policy
        (Post "/embeddings" (embed_payload (rank_texts env (job :: jobs))))
        4 4 60 evs.
Proof.
  assert ((_rank_jobs env (job :: jobs) st).1
          = (_openai_post env "embeddings"
               (embed_payload (rank_texts env (job :: jobs))) st).1) as ->.
  { unfold _rank_jobs, _embed. fold (rank_texts env (job :: jobs)).
    fold (embed_payload (rank_texts env (job :: jobs))).
    unfold bind, lift, ret.
    destruct (_openai_post env "embeddings" _ st) as [st1 [r|e]]; [|done].
    destruct (rbind _ _) as [[|base embs]|e]; [done| |done].
    by match goal with
       | |- context [match ?x with Ok _ => _ | Raise _ => _ end] => destruct x
       end. }
  unfold _openai_post, retrying, post_once.
  destruct (retry_from_events OPENAI_RETRY
              (Post ("/" +:+ "embeddings")
                 (embed_payload (rank_texts env (job :: jobs))))
              (http_post env "embeddings" (embed_payload (rank_texts env (job :: jobs))))
              3 1 st) as (retries & Hle & Hnet).
  eexists. split; [exact Hnet|]. split.
  - by destruct retries as [|k]; [|simpl; destruct (retry_events _ _ _ k)].
  - apply (retry_events_within OPENAI_RETRY); [done|simpl; lia|lia].
Qed.

(** ** Gathering *)

Lemma retry_from_outcome {A} r ev (outcome : nat → res A) remaining n st1 st2 :
  (retry_from remaining r (request ev outcome) n st1).2
  = (retry_from remaining r (request ev outcome) n st2).2.
Proof.
  revert n st1 st2. induction remaining as [|k IH]; intros n st1 st2; simpl;
    destruct (outcome n) as [a|e]; simpl; try done;
    destruct (retry_on r e); simpl; try done.
Qed.

Lemma scrape_outcome env target (parse : string → res (list Job)) st :
  ((do html <- _get_html env target; lift (parse html)) st).2
  = rbind (fetch_outcome env target) parse.
Proof.
  unfold fetch_outcome, bind, lift.
  pose proof (retry_from_outcome GET_HTML_RETRY (Get target) (http_get env target)
                2 1 st fresh) as H.
  change (( _get_html env target st).2 = (_get_html env target fresh).2) in H.
  rewrite <- H. by destruct (_get_html env target st) as [st1 [html|e]].
Qed.

Lemma mapM_catch_outcomes {A} (tasks : list (M A)) (outs : list (res A)) :
  Forall2 (λ task out, ∀ st, (task st).2 = out) tasks outs →
  ∀ st, (mapM catch tasks st).2 = Ok outs.
Proof.
  induction 1 as [|task out tasks outs Htask _ IH]; intros st; [done|].
  simpl. unfold bind at 1. unfold catch at 1. specialize (Htask st).
  destruct (task st) as [st1 r]. simpl in Htask. subst r.
  unfold bind at 1. specialize (IH st1).
  by destruct (mapM catch tasks st1) as [st2 [rs|e]]; simpl in IH; simplify_eq.
Qed.

Lemma gather_tasks_outcomes env :
  Forall2 (λ task out, ∀ st, (task st).2 = out) (gather_tasks env) (board_batches env).
Proof.
  unfold gather_tasks, board_batches. apply Forall2_app.
  - apply Forall2_fmap, Forall_Forall2_diag, Forall_forall.
    intros city _ st. apply scrape_outcome.
  - repeat constructor; intros st; apply scrape_outcome.
Qed.

Lemma gather_result env st :
  (_gather env st).2
  = Ok (filter (λ j, url j ∉ SEEN_URLS st) (fetched (board_batches env))).
Proof.
  pose proof (mapM_catch_outcomes _ _ (gather_tasks_outcomes env) st) as Hout.
  pose proof (preserves_mapM posts_only catch _ (scrapers_posts_only env) st) as Hkeep.
  unfold _gather, bind at 1.
  destruct (mapM catch (gather_tasks env) st) as [st1 [batches|e]]; [|done].
  simpl in Hout. injection Hout as ->. injection Hkeep as _ Hseen _ _ _.
  unfold bind, gets, ret. simpl. by rewrite keep_unseen_fetched, Hseen.
Qed.

(** X13: the boards are isolated from one another. Whatever happens on
    the network, [_gather] returns normally, and what it returns is made
    of each board's own outcome alone: the postings that each board's
    parser finds on its page, for the boards whose page arrives and
    parses, in the order of the sites, then RemoteOK, then WWR, without
    the postings whose url is in the cache. A board that fails
    contributes nothing and takes nothing away. *)
Theorem gather_isolates_boards env st :
  (_gather env st).2
  = Ok (filter (λ j, url j ∉ SEEN_URLS st) (fetched (board_batches env))).
Proof. apply gather_result. Qed.

Example gather_patchy :
  (_gather patchy_world fresh).2 = Ok [job_b; job_c].
Proof. vm_compute. reflexivity. Qed.

(** ** The run as a whole *)

Lemma main_unlocked env st :
  fs st !! LOCK_FILE env = None →
  main env st
  = match _gather env (lock_taken env st) with
    | (st1, Ok []) => (push_stdout MsgNoNewJobs st1, Ok tt)
    | (st1, Ok (job :: jobs)) => after_gather env (job :: jobs) st1
    | (st1, Raise e) => (st1, Raise e)
    end.
Proof.
  intros Hlock. unfold main, bind at 1. unfold catch, os_open_excl.
  rewrite Hlock. unfold bind at 1. unfold print at 1, modify.
  fold (lock_taken env st). unfold bind at 1.
  by destruct (_gather env (lock_taken env st)) as [st1 [[|job jobs]|e]].
Qed.

Lemma ends_md_path_ne env job name :
  ends_md name = false → letter_path env job ≠ path_join (CACHE_DIR env) name.
Proof.
  unfold letter_path, path_join. intros Hname H.
  apply (inj (String.app (CACHE_DIR env))) in H.
  apply (inj (String.app "/")) in H.
  assert (ends_md name = true) as Hmd; [|congruence].
  rewrite <- H. by do 5 apply ends_md_app.
Qed.

Lemma cache_path_ne env a b : a ≠ b → path_join (CACHE_DIR env) a ≠ path_join (CACHE_DIR env) b.
Proof.
  intros Hne H. unfold path_join in H.
  apply (inj (String.app (CACHE_DIR env))) in H.
  by apply (inj (String.app "/")) in H.
Qed.

(** The loop body writes the letter and the journal, nothing else. *)
Lemma handle_result_other_files env job r st name :
  ends_md name = false → name ≠ "followups.txt" →
  fs (handle_result env (job, r) st).1 !! path_join (CACHE_DIR env) name
  = fs st !! path_join (CACHE_DIR env) name.
Proof.
  intros Hmd Hname.
  destruct (handle_result env (job, r) st) as [st1 [[]|e]] eqn:Hstep.
  - destruct (handle_result_ok_inv env job r st) as [[_ [err Hrun]]|[_ [text Hrun]]];
      [by rewrite Hstep|..]; rewrite Hstep in Hrun; injection Hrun as ->; [done|].
    simpl. rewrite !lookup_insert_ne; [done|..].
    + by apply ends_md_path_ne.
    + by apply cache_path_ne.
  - pose proof (handle_result_raise_inv env (job, r) st e) as H.
    rewrite Hstep in H. by rewrite (H eq_refl).
Qed.

Lemma loop_other_files env pairs st name :
  ends_md name = false → name ≠ "followups.txt" →
  fs (forM (handle_result env) pairs st).1 !! path_join (CACHE_DIR env) name
  = fs st !! path_join (CACHE_DIR env) name.
Proof.
  intros Hmd Hname. revert st.
  induction pairs as [|[job r] pairs IH]; intros st; [done|].
  rewrite forM_cons.
  pose proof (handle_result_other_files env job r st name Hmd Hname) as Hstep.
  destruct (handle_result env (job, r) st) as [st1 [[]|e]]; simpl in *; [|done].
  by rewrite IH.
Qed.

Lemma handle_result_seen env job r st :
  SEEN_URLS (handle_result env (job, r) st).1 = SEEN_URLS st
  ∨ SEEN_URLS (handle_result env (job, r) st).1 = {[url job]} ∪ SEEN_URLS st.
Proof.
  destruct (handle_result env (job, r) st) as [st1 [[]|e]] eqn:Hstep.
  - destruct (handle_result_ok_inv env job r st) as [[_ [err Hrun]]|[_ [text Hrun]]];
      [by rewrite Hstep|..]; rewrite Hstep in Hrun; injection Hrun as ->; auto.
  - pose proof (handle_result_raise_inv env (job, r) st e) as H.
    rewrite Hstep in H. left. by rewrite (H eq_refl).
Qed.

(** The loop never takes a url out of the cache and puts in at most one
    per result. *)
Lemma loop_seen env pairs st :
  SEEN_URLS st ⊆ SEEN_URLS (forM (handle_result env) pairs st).1
  ∧ size (SEEN_URLS (forM (handle_result env) pairs st).1 ∖ SEEN_URLS st)
    ≤ length pairs.
Proof.
  revert st. induction pairs as [|[job r] pairs IH]; intros st.
  { simpl. split; [done|]. rewrite difference_diag_L, size_empty. lia. }
  rewrite forM_cons.
  pose proof (handle_result_seen env job r st) as Hstep.
  destruct (handle_result env (job, r) st) as [st1 [[]|e]]; simpl in *.
  - destruct (IH st1) as [Hsub Hsize].
    assert (SEEN_URLS st ⊆ SEEN_URLS st1) as Hsub1.
    { destruct Hstep as [-> | ->]; [done|]. apply union_subseteq_r. }
    split; [by etrans|].
    set (final := SEEN_URLS (forM (handle_result env) pairs st1).1) in *.
    assert (final ∖ SEEN_URLS st
            ⊆ (final ∖ SEEN_URLS st1) ∪ (SEEN_URLS st1 ∖ SEEN_URLS st)) as Hsplit.
    { intros u [Hu Hnot]%elem_of_difference.
      destruct (decide (u ∈ SEEN_URLS st1)).
      - apply elem_of_union_r. by apply elem_of_difference.
      - apply elem_of_union_l. by apply elem_of_difference. }
    apply subseteq_size in Hsplit.
    pose proof (size_union_alt (final ∖ SEEN_URLS st1)
                  (SEEN_URLS st1 ∖ SEEN_URLS st)) as Hunion.
    assert (size (SEEN_URLS st1 ∖ SEEN_URLS st) ≤ 1) as Hone.
    { destruct Hstep as [-> | ->].
      - rewrite difference_diag_L, size_empty. lia.
      - etrans; [apply (subseteq_size _ {[url job]})|by rewrite size_singleton].
        intros u [Hu Hnot]%elem_of_difference.
        by apply elem_of_union in Hu as [Hu|Hu]. }
    pose proof (subseteq_size
                  ((SEEN_URLS st1 ∖ SEEN_URLS st) ∖ (final ∖ SEEN_URLS st1))
                  (SEEN_URLS st1 ∖ SEEN_URLS st)
                  (subseteq_difference_l _ _ _ (reflexivity _))) as Hdiff.
    lia.
  - destruct Hstep as [-> | ->].
    + split; [done|]. rewrite difference_diag_L, size_empty. lia.
    + split; [apply union_subseteq_r|].
      etrans; [apply (subseteq_size _ {[url job]})|rewrite size_singleton; lia].
      intros u [Hu Hnot]%elem_of_difference.
      by apply elem_of_union in Hu as [Hu|Hu].
Qed.

Lemma mapM_cons {A B} (f : A → M B) x l st :
  mapM f (x :: l) st
  = match f x st with
    | (st1, Ok y) =>
        match mapM f l st1 with
        | (st2, Ok ys) => (st2, Ok (y :: ys))
        | (st2, Raise e) => (st2, Raise e)
        end
    | (st1, Raise e) => (st1, Raise e)
    end.
Proof. reflexivity. Qed.

(** The generation calls never raise, hand back one result per posting
    and touch nothing but the network. *)
Lemma generate_all env chosen st :
  ∃ st' results,
    mapM (_mega_generate env) chosen st = (st', Ok results)
    ∧ offline st' = offline st
    ∧ length results = length chosen.
Proof.
  revert st. induction chosen as [|job chosen IH]; intros st.
  { by exists st, []. }
  rewrite mapM_cons.
  pose proof (mega_generate_offline env job st) as Hoff.
  rewrite mega_generate_run in *.
  destruct (generation_call env job st) as [st1 [v|e]]; simpl in Hoff;
    destruct (IH st1) as (st2 & results & -> & Hrest & Hlen);
    eexists _, _; (split; [done|]); (split; [by rewrite Hrest|]);
    simpl; by rewrite Hlen.
Qed.

Lemma bind_run {A B} (m : M A) (k : A → M B) st :
  bind m k st
  = match m st with
    | (st', Ok a) => k a st'
    | (st', Raise e) => (st', Raise e)
    end.
Proof. reflexivity. Qed.

(** Everything that can happen from the ranking on, when the lock is
    held. *)
Lemma after_gather_cases env jobs st1 st' r :
  fs st1 !! LOCK_FILE env = Some "" →
  after_gather env jobs st1 = (st', r) →
  SEEN_URLS st1 ⊆ SEEN_URLS st'
  ∧ size (SEEN_URLS st' ∖ SEEN_URLS st1) ≤ MAX_APPLY
  ∧ match r with
    | Raise e =>
        fs st' !! LOCK_FILE env = Some ""
        ∧ fs st' !! SEEN_FILE env = fs st1 !! SEEN_FILE env
    | Ok _ =>
        fs st' !! LOCK_FILE env = None
        ∧ fs st' !! SEEN_FILE env = Some (seen_text env (SEEN_URLS st'))
        ∧ fs st' !! seen_tmp env = None
        ∧ head (stdout st') = Some MsgAllDone
    end.
Proof.
  intros Hlock Hrun. unfold after_gather in Hrun. rewrite bind_run in Hrun.
  pose proof (rank_jobs_offline env jobs st1) as Hrank.
  destruct (_rank_jobs env jobs st1) as [st2 [ranked|e]]; simpl in Hrank;
    injection Hrank as Hfs2 Hseen2 _ _.
  2:{ injection Hrun as <- <-.
      rewrite Hseen2, Hfs2, difference_diag_L, size_empty.
      split_and!; [done|apply Nat.le_0_l|done|done]. }
  rewrite bind_run in Hrun. unfold print at 1, modify in Hrun.
  set (chosen := take MAX_APPLY ranked) in *.
  set (st3 := push_stdout (MsgRanked (length jobs) (length chosen)) st2) in *.
  rewrite bind_run in Hrun.
  destruct (generate_all env chosen st3) as (st4 & results & Hgen & Hoff & Hlen).
  rewrite Hgen in Hrun.
  injection Hoff as Hfs4 Hseen4 _ _. simpl in Hfs4, Hseen4.
  assert (length (zip chosen results) ≤ MAX_APPLY) as Hpairs.
  { rewrite length_zip_with_l_eq by done. unfold chosen.
    rewrite length_take. apply Nat.le_min_l. }
  rewrite bind_run in Hrun.
  destruct (loop_seen env (zip chosen results) st4) as [Hsub Hsize].
  pose proof (loop_other_files env (zip chosen results) st4 ".lock"
                eq_refl ltac:(discriminate)) as Hl.
  pose proof (loop_other_files env (zip chosen results) st4 "seen.json"
                eq_refl ltac:(discriminate)) as Hs.
  fold (LOCK_FILE env) in Hl. fold (SEEN_FILE env) in Hs.
  rewrite Hseen4, Hseen2 in Hsub, Hsize. rewrite Hfs4, Hfs2 in Hl, Hs.
  destruct (forM (handle_result env) (zip chosen results) st4) as [st5 [[]|e]];
    simpl in Hsub, Hsize, Hl, Hs.
  2:{ injection Hrun as <- <-.
      split_and!; [done|by etrans; [exact Hsize|]|by rewrite Hl|done]. }
  rewrite bind_run in Hrun. unfold gets at 1 in Hrun.
  rewrite bind_run, save_seen_run in Hrun.
  rewrite bind_run in Hrun. unfold print at 1, modify, os_remove in Hrun.
  assert (LOCK_FILE env ≠ SEEN_FILE env) as Hne1.
  { by apply cache_path_ne. }
  assert (LOCK_FILE env ≠ seen_tmp env) as Hne2.
  { by apply cache_path_ne. }
  pose proof (seen_tmp_ne_SEEN_FILE env) as Hne3.
  simpl fs in Hrun.
  rewrite lookup_insert_ne, lookup_delete_ne, lookup_insert_ne, Hl, Hlock in Hrun
    by done.
  injection Hrun as <- <-. simpl.
  split_and!; [done|by etrans; [exact Hsize|]|..|done].
  - apply lookup_delete_eq.
  - by rewrite lookup_delete_ne, lookup_insert_eq.
  - by rewrite lookup_delete_ne, lookup_insert_ne, lookup_delete_eq.
Qed.

(** What [main] comes to once it holds the lock: the state after
    gathering differs from the start in the lock file, the banner and
    the network log only. *)
Lemma main_after_lock env st :
  fs st !! LOCK_FILE env = None →
  ∃ st1 jobs,
    _gather env (lock_taken env st) = (st1, Ok jobs)
    ∧ fs st1 = <[LOCK_FILE env := ""]> (fs st)
    ∧ SEEN_URLS st1 = SEEN_URLS st
    ∧ stdout st1 = MsgMood :: stdout st
    ∧ main env st = match jobs with
                    | [] => (push_stdout MsgNoNewJobs st1, Ok tt)
                    | _ => after_gather env jobs st1
                    end.
Proof.
  intros Hlock.
  pose proof (gather_result env (lock_taken env st)) as Hres.
  pose proof (gather_posts_only env (lock_taken env st)) as Hkeep.
  rewrite (main_unlocked env st Hlock).
  destruct (_gather env (lock_taken env st)) as [st1 [jobs|e]]; [|done].
  injection Hkeep as Hfs Hseen Hout _ _. simpl in *.
  exists st1, jobs. split_and!; try done. by destruct jobs.
Qed.

(** X14: a run that ends with an exception has not released the lock and
    has not touched the cache file: after the lock is taken, whatever is
    raised leaves [main] past the lines that save the cache and remove
    the lock. *)
Theorem main_abort_keeps_lock env st e :
  fs st !! LOCK_FILE env = None →
  (main env st).2 = Raise e →
  fs (main env st).1 !! LOCK_FILE env = Some ""
  ∧ fs (main env st).1 !! SEEN_FILE env = fs st !! SEEN_FILE env.
Proof.
  intros Hlock Hraise.
  destruct (main_after_lock env st Hlock)
    as (st1 & jobs & _ & Hfs & _ & _ & Hmain).
  rewrite Hmain in *. destruct jobs as [|job jobs]; [done|].
  assert (fs st1 !! LOCK_FILE env = Some "") as Hheld.
  { rewrite Hfs. apply lookup_insert_eq. }
  destruct (after_gather env (job :: jobs) st1) as [st' r] eqn:Hrun.
  destruct (after_gather_cases env _ _ _ _ Hheld Hrun) as (_ & _ & Hcase).
  simpl in Hraise. subst r. destruct Hcase as [Hl Hs]. split; [done|].
  simpl. rewrite Hs, Hfs. apply lookup_insert_ne. by apply cache_path_ne.
Qed.

Lemma main_abort_keeps_lock_scorer :
  fs (main scorer_down_world fresh).1 !! LOCK_FILE scorer_down_world = Some ""
  ∧ fs (main scorer_down_world fresh).1 !! SEEN_FILE scorer_down_world
    = fs fresh !! SEEN_FILE scorer_down_world.
Proof.
  apply (main_abort_keeps_lock scorer_down_world fresh retry_error).
  - reflexivity.
  - vm_compute. reflexivity.
Defined.

Lemma main_ok_cases env st :
  fs st !! LOCK_FILE env = None →
  (main env st).2 = Ok tt →
  (head (stdout (main env st).1) = Some MsgNoNewJobs
   ∧ fs (main env st).1 !! LOCK_FILE env = Some ""
   ∧ fs (main env st).1 !! SEEN_FILE env = fs st !! SEEN_FILE env
   ∧ SEEN_URLS (main env st).1 = SEEN_URLS st)
  ∨ (head (stdout (main env st).1) = Some MsgAllDone
     ∧ fs (main env st).1 !! LOCK_FILE env = None
     ∧ fs (main env st).1 !! SEEN_FILE env
       = Some (seen_text env (SEEN_URLS (main env st).1))
     ∧ fs (main env st).1 !! seen_tmp env = None).
Proof.
  intros Hlock Hok.
  destruct (main_after_lock env st Hlock)
    as (st1 & jobs & _ & Hfs & Hseen & _ & Hmain).
  rewrite Hmain in *. destruct jobs as [|job jobs].
  - left. simpl. rewrite Hfs, Hseen. split_and!; try done.
    + apply lookup_insert_eq.
    + apply lookup_insert_ne. by apply cache_path_ne.
  - right.
    assert (fs st1 !! LOCK_FILE env = Some "") as Hheld.
    { rewrite Hfs. apply lookup_insert_eq. }
    destruct (after_gather env (job :: jobs) st1) as [st' r] eqn:Hrun.
    destruct (after_gather_cases env _ _ _ _ Hheld Hrun) as (_ & _ & Hcase).
    simpl in Hok. subst r. simpl. by destruct Hcase as (? & ? & ? & ?).
Qed.

(** X15: a run that returns normally has done one of two things. It has
    printed "No new jobs." and left the lock file and the cache file as
    they were after the lock was taken; or it has printed "All done.",
    written the whole cache to the cache file, left no temporary file,
    and removed the lock. *)
Theorem main_normal_return env st :
  fs st !! LOCK_FILE env = None →
  (main env st).2 = Ok tt →
  (head (stdout (main env st).1) = Some MsgNoNewJobs
   ∧ fs (main env st).1 !! LOCK_FILE env = Some ""
   ∧ fs (main env st).1 !! SEEN_FILE env = fs st !! SEEN_FILE env
   ∧ SEEN_URLS (main env st).1 = SEEN_URLS st)
  ∨ (head (stdout (main env st).1) = Some MsgAllDone
     ∧ fs (main env st).1 !! LOCK_FILE env = None
     ∧ fs (main env st).1 !! SEEN_FILE env
       = Some (seen_text env (SEEN_URLS (main env st).1))
     ∧ fs (main env st).1 !! seen_tmp env = None).
Proof. apply main_ok_cases. Qed.

Lemma main_normal_return_done :
  head (stdout (main done_world fresh).1) = Some MsgAllDone
  ∧ fs (main done_world fresh).1 !! LOCK_FILE done_world = None
  ∧ fs (main done_world fresh).1 !! SEEN_FILE done_world = Some cache_text.
Proof.
  destruct (main_normal_return done_world fresh) as [(H & _)|(Hdone & Hl & Hs & _)].
  - reflexivity.
  - vm_compute. reflexivity.
  - vm_compute in H. discriminate H.
  - split; [exact Hdone|]. split; [exact Hl|exact Hs].
Defined.

(** X16: a run never takes a url out of the cache and adds at most
    [MAX_APPLY] of them, however many postings it gathers and however it
    ends. *)
Theorem main_cache_growth env st :
  SEEN_URLS st ⊆ SEEN_URLS (main env st).1
  ∧ size (SEEN_URLS (main env st).1 ∖ SEEN_URLS st) ≤ MAX_APPLY.
Proof.
  destruct (fs st !! LOCK_FILE env) as [data|] eqn:Hlock.
  { rewrite main_locked by eauto. simpl.
    rewrite difference_diag_L, size_empty. split; [done|apply Nat.le_0_l]. }
  destruct (main_after_lock env st Hlock)
    as (st1 & jobs & _ & Hfs & Hseen & _ & Hmain).
  rewrite Hmain. destruct jobs as [|job jobs].
  - simpl. rewrite Hseen, difference_diag_L, size_empty.
    split; [done|apply Nat.le_0_l].
  - assert (fs st1 !! LOCK_FILE env = Some "") as Hheld.
    { rewrite Hfs. apply lookup_insert_eq. }
    destruct (after_gather env (job :: jobs) st1) as [st' r] eqn:Hrun.
    destruct (after_gather_cases env _ _ _ _ Hheld Hrun) as (Hsub & Hsize & _).
    simpl. by rewrite <- Hseen.
Qed.

(** X17: a run that finds the lock taken does nothing. It prints that
    another run is active and returns normally; the files (the lock
    among them), the cache and the network are left alone. *)
Theorem locked_run_is_idle env st :
  is_Some (fs st !! LOCK_FILE env) →
  (main env st).2 = Ok tt
  ∧ stdout (main env st).1 = MsgLocked :: stdout st
  ∧ fs (main env st).1 = fs st
  ∧ SEEN_URLS (main env st).1 = SEEN_URLS st
  ∧ net (main env st).1 = net st.
Proof. intros Hlock. by rewrite main_locked. Qed.

Lemma locked_run_is_idle_twice :
  let st := (main quiet_world fresh).1 in
  (main quiet_world st).2 = Ok tt
  ∧ fs (main quiet_world st).1 = fs st
  ∧ net (main quiet_world st).1 = net st.
Proof.
  destruct (locked_run_is_idle quiet_world (main quiet_world fresh).1)
    as (Hok & _ & Hfs & _ & Hnet).
  - vm_compute. eauto.
  - cbv zeta. split; [exact Hok|]. split; [exact Hfs | exact Hnet].
Defined.

(** X18: the run after a completed run skips what that run has done.
    When a run has printed "All done." and [json] reads back the cache
    file it wrote, a process that starts on the files it left finds the
    lock free, loads exactly the cache of the completed run, and passes
    no posting with a url of that cache on to ranking. *)
Theorem next_run_skips_done env st st2 :
  fs st !! LOCK_FILE env = None →
  (main env st).2 = Ok tt →
  head (stdout (main env st).1) = Some MsgAllDone →
  json_loads env (seen_text env (SEEN_URLS (main env st).1))
  = Ok (JArr (JStr <$> sorted_strs (SEEN_URLS (main env st).1))) →
  fs st2 = fs (main env st).1 →
  _load_seen env (fs st2) = Some (Ok (SEEN_URLS st2)) →
  SEEN_URLS st2 = SEEN_URLS (main env st).1
  ∧ fs st2 !! LOCK_FILE env = None
  ∧ ∃ jobs, (_gather env (lock_taken env st2)).2 = Ok jobs
            ∧ Forall (λ j, url j ∉ SEEN_URLS (main env st).1) jobs.
Proof.
  intros Hlock Hok Hdone Hjson Hfs Hload.
  destruct (main_ok_cases env st Hlock Hok) as [(Hnone & _)|(_ & Hl & Hs & _)].
  { rewrite Hdone in Hnone. discriminate Hnone. }
  assert (SEEN_URLS st2 = SEEN_URLS (main env st).1) as Hseen.
  { unfold _load_seen in Hload.
    rewrite Hfs, Hs, Hjson, set_of_json_strs, list_to_set_sorted_strs in Hload.
    by injection Hload as ->. }
  split; [done|]. split; [by rewrite Hfs|].
  eexists. split; [apply gather_result|].
  simpl. rewrite Hseen. apply Forall_forall. intros j Hj.
  by apply list_elem_of_filter in Hj as [? _].
Qed.

Lemma next_run_skips_done_reader :
  let st2 := mkState (fs (main done_world fresh).1) {[url job_a]} [] [] 0 in
  SEEN_URLS st2 = SEEN_URLS (main done_world fresh).1
  ∧ (_gather done_world (lock_taken done_world st2)).2 = Ok [].
Proof.
  destruct (next_run_skips_done done_world fresh
              (mkState (fs (main done_world fresh).1) {[url job_a]} [] [] 0))
    as (Hseen & _ & _).
  - vm_compute. reflexivity.
  - vm_compute. reflexivity.
  - vm_compute. reflexivity.
  - vm_compute. reflexivity.
  - vm_compute. reflexivity.
  - vm_compute. reflexivity.
  - cbv zeta. split; [exact Hseen|]. vm_compute. reflexivity.
Defined.

(** ** The requests of a run *)

Section RaisesBy.
Context (measure : State → nat).

Lemma raises_by_weaken {A} k k' (m : M A) :
  k ≤ k' → raises_by measure k m → raises_by measure k' m.
Proof. intros Hle Hm st. specialize (Hm st). lia. Qed.

Lemma raises_by_preserves {A} (m : M A) :
  preserves measure m → raises_by measure 0 m.
Proof. intros Hm st. rewrite Hm. lia. Qed.

Lemma raises_by_bind {A B} k1 k2 (m : M A) (f : A → M B) :
  raises_by measure k1 m → (∀ a, raises_by measure k2 (f a)) →
  raises_by measure (k1 + k2) (bind m f).
Proof.
  intros Hm Hf st. rewrite bind_run. specialize (Hm st).
  destruct (m st) as [st1 [a|e]]; simpl in *; [|lia].
  specialize (Hf a st1). lia.
Qed.

Lemma raises_by_catch {A} k (m : M A) :
  raises_by measure k m → raises_by measure k (catch m).
Proof. intros Hm st. specialize (Hm st). unfold catch. by destruct (m st). Qed.

Lemma raises_by_mapM {A B} k (f : A → M B) l :
  Forall (λ x, raises_by measure k (f x)) l →
  raises_by measure (k * length l) (mapM f l).
Proof.
  induction 1 as [|x l Hx _ IH]; intros st; [simpl; lia|].
  rewrite mapM_cons. specialize (Hx st).
  destruct (f x st) as [st1 [y|e]]; simpl in *; [|lia].
  specialize (IH st1). destruct (mapM f l st1) as [st2 [ys|e]]; simpl in *; lia.
Qed.
End RaisesBy.

Lemma filter_retry_events (P : net_event → bool) r ev n retries :
  (∀ z, P (Sleep z) = false) →
  length (filter (λ e, P e = true) (retry_events r ev n retries))
  = if P ev then S retries else 0.
Proof.
  intros Hsleep. revert n. induction retries as [|k IH]; intros n; simpl.
  - destruct (P ev) eqn:Hev; [by rewrite filter_cons_True|].
    rewrite filter_cons_False; [done|]. by rewrite Hev.
  - rewrite filter_app, length_app, IH.
    rewrite filter_cons_False by (by rewrite Hsleep).
    destruct (P ev) eqn:Hev.
    + rewrite filter_cons_True by done. simpl. lia.
    + rewrite filter_cons_False; [done|]. by rewrite Hev.
Qed.

Lemma retrying_requests {A} (P : net_event → bool) r ev (outcome : nat → res A) :
  (∀ z, P (Sleep z) = false) →
  raises_by (λ st, length (filter (λ e, P e = true) (net st)))
    (if P ev then S (max_attempt_number r - 1) else 0)
    (retrying r (request ev outcome)).
Proof.
  intros Hsleep st. unfold retrying.
  destruct (retry_from_events r ev outcome (max_attempt_number r - 1) 1 st)
    as (retries & Hle & ->).
  rewrite filter_app, length_app, filter_retry_events by done.
  destruct (P ev); lia.
Qed.

Lemma get_html_pages env target : raises_by pages_asked 3 (_get_html env target).
Proof. apply (retrying_requests is_get GET_HTML_RETRY (Get target)). done. Qed.

Lemma openai_post_posts env path payload :
  raises_by posts_made 4 (_openai_post env path payload).
Proof.
  apply (retrying_requests is_post OPENAI_RETRY (Post ("/" +:+ path) payload)). done.
Qed.

Lemma openai_post_pages env path payload :
  raises_by pages_asked 0 (_openai_post env path payload).
Proof.
  apply (retrying_requests is_get OPENAI_RETRY (Post ("/" +:+ path) payload)). done.
Qed.

Lemma handle_result_net env p : preserves net (handle_result env p).
Proof.
  intros st. destruct p as [job r]. unfold handle_result, bind, lift. simpl.
  destruct (contains "data_error" r) as [[|]|e]; simpl; [| |done].
  - by destruct (getitem r "data_error").
  - destruct (dict_get r "cover_letter" (JStr "")) as [letter|e]; simpl; [|done].
    unfold _save_letter. by destruct letter.
Qed.

Lemma save_seen_net env seen : preserves net (_save_seen env seen).
Proof. intros st. by rewrite save_seen_run. Qed.

Lemma os_remove_net p : preserves net (os_remove p).
Proof. intros st. unfold os_remove. by destruct (fs st !! p). Qed.

Lemma os_open_excl_net p : preserves net (os_open_excl p).
Proof. intros st. unfold os_open_excl. by destruct (fs st !! p). Qed.

(** What [main] does after the generation calls leaves the network
    alone. *)
Lemma main_tail_net env pairs :
  preserves net (do_ forM (handle_result env) pairs;
                 do seen <- gets SEEN_URLS;
                 do_ _save_seen env seen;
                 do_ print MsgAllDone;
                 os_remove (LOCK_FILE env)).
Proof.
  apply preserves_bind; [apply preserves_forM, handle_result_net|]. intros _.
  apply preserves_bind; [apply preserves_gets|]. intros seen.
  apply preserves_bind; [apply save_seen_net|]. intros _.
  apply preserves_bind; [done|]. intros _. apply os_remove_net.
Qed.

Lemma preserves_net_measure {A} (g : list net_event → nat) (m : M A) :
  preserves net m → raises_by (λ st, g (net st)) 0 m.
Proof. intros Hm st. rewrite Hm. lia. Qed.

Section RunRequests.
Context (g : list net_event → nat).
Let measure (st : State) : nat := g (net st).
Context (env : Env) (per_page per_post : nat).
Hypothesis Hpage : ∀ target, raises_by measure per_page (_get_html env target).
Hypothesis Hpost : ∀ path payload,
  raises_by measure per_post (_openai_post env path payload).

Lemma gather_requests :
  raises_by measure (per_page * (length (CR_SITES env) + 2)) (_gather env).
Proof.
  assert (∀ target (parse : string → res (list Job)),
    raises_by measure per_page
      (catch (do html <- _get_html env target; lift (parse html)))) as Htask.
  { intros target parse. apply raises_by_catch.
    apply (raises_by_weaken _ (per_page + 0)); [lia|].
    apply raises_by_bind; [apply Hpage|]. intros html st. unfold measure. simpl. lia. }
  apply (raises_by_weaken _ (per_page * length (gather_tasks env) + 0)).
  { unfold gather_tasks. rewrite length_app, length_fmap. simpl. lia. }
  apply raises_by_bind.
  - apply raises_by_mapM. unfold gather_tasks. apply Forall_app. split.
    + apply Forall_fmap, Forall_forall. intros city _. apply Htask.
    + repeat constructor; apply Htask.
  - intros results st. unfold measure. simpl. lia.
Qed.

Lemma rank_jobs_requests jobs : raises_by measure per_post (_rank_jobs env jobs).
Proof.
  destruct jobs as [|job jobs]; [intros st; unfold measure; simpl; lia|].
  apply (raises_by_weaken _ (per_post + 0)); [lia|].
  apply raises_by_bind.
  - apply (raises_by_weaken _ (per_post + 0)); [lia|].
    apply raises_by_bind; [apply Hpost|]. intros r st. unfold measure. simpl. lia.
  - intros embeds. apply (preserves_net_measure g).
    apply preserves_bind; [apply preserves_lift|]. intros base.
    apply preserves_bind; [apply preserves_lift|]. intros ranked.
    apply preserves_ret.
Qed.

Lemma mega_generate_requests job :
  raises_by measure per_post (_mega_generate env job).
Proof.
  apply (raises_by_weaken _ (per_post + 0)); [lia|].
  apply raises_by_bind.
  - apply raises_by_catch. apply (raises_by_weaken _ (per_post + 0)); [lia|].
    apply raises_by_bind.
    + apply (raises_by_weaken _ (per_post + 0)); [lia|].
      apply raises_by_bind; [apply Hpost|]. intros r st. unfold measure. simpl. lia.
    + intros raw st. unfold measure. simpl. lia.
  - intros [v|e] st; unfold measure; simpl; lia.
Qed.

Lemma main_requests :
  raises_by measure
    (per_page * (length (CR_SITES env) + 2) + (per_post + per_post * MAX_APPLY))
    (main env).
Proof.
  unfold main.
  apply (raises_by_bind _ 0).
  { apply raises_by_catch, (preserves_net_measure g), os_open_excl_net. }
  intros [_|e]; [|intros st; unfold measure; simpl; lia].
  apply (raises_by_bind _ 0); [intros st; unfold measure; simpl; lia|]. intros _.
  apply raises_by_bind; [apply gather_requests|].
  intros [|job jobs]; [intros st; unfold measure; simpl; lia|].
  apply raises_by_bind; [apply rank_jobs_requests|]. intros ranked.
  apply (raises_by_bind _ 0); [intros st; unfold measure; simpl; lia|]. intros _.
  apply (raises_by_weaken _ (per_post * MAX_APPLY + 0)); [by rewrite Nat.add_0_r|].
  apply raises_by_bind.
  - apply (raises_by_weaken _ (per_post * length (take MAX_APPLY ranked))).
    { rewrite length_take. apply Nat.mul_le_mono_l, Nat.le_min_l. }
    apply raises_by_mapM, Forall_forall. intros job' _.
    apply mega_generate_requests.
  - intros results. apply (preserves_net_measure g), main_tail_net.
Qed.
End RunRequests.

(** X19: a run has a request budget. However the network behaves and
    however the run ends, [main] makes at most 16 requests to the OpenAI
    endpoints (4 for the one embeddings batch and 4 for each of at most
    3 generation calls) and at most 3 page requests per board. *)
Theorem main_request_budget env st :
  posts_made (main env st).1 ≤ posts_made st + 16
  ∧ pages_asked (main env st).1
    ≤ pages_asked st + 3 * (length (CR_SITES env) + 2).
Proof.
  split.
  - pose proof (main_requests
                  (λ evs, length (filter (λ e, is_post e = true) evs)) env 0 4) as H.
    unfold posts_made. etrans; [apply H|].
    + intros target st'.
      pose proof (get_html_posts_only env target st') as Hkeep.
      injection Hkeep as _ _ _ _ ->. lia.
    + intros path payload. apply openai_post_posts.
    + simpl. lia.
  - pose proof (main_requests
                  (λ evs, length (filter (λ e, is_get e = true) evs)) env 3 0) as H.
    unfold pages_asked. etrans; [apply H|].
    + intros target. apply get_html_pages.
    + intros path payload. apply openai_post_pages.
    + simpl. lia.
Qed.
